(** * salien-script-js: the request layer and the planet selection pass

    A shallow embedding of [src/index.js] (class [SalienScript]):
    [RequestAPI] with its bounded retry loop, the endpoint wrappers
    [ApiGetPlanets] and [ApiGetPlanet], and [setupGame], the selection pass.

    The asynchronous code is single threaded and awaits every call, so it is
    embedded as a sequential state-and-exception monad.  The remote API is a
    scripted endpoint: a queue of handlers, one consumed by each call of
    [fetch(url, options)] followed by [request.json()]. *)

From Stdlib Require Import ZArith List String Bool Lia.
From Stdlib Require Import SpecFloat DecimalString.
Import ListNotations.
Local Open Scope string_scope.
Local Open Scope Z_scope.

(** ** JavaScript values used by the script *)

(** A JavaScript number is an IEEE 754 binary64 value. *)
Definition number := spec_float.

(** The literal [0.97]: the binary64 value nearest to 97/100. *)
Definition js_0_97 : number := S754_finite false 8736983277098762 (-53).

(** Truthiness of a number: [0], [-0] and [NaN] are falsy. *)
Definition truthy_number (x : number) : bool :=
  match x with
  | S754_zero _ | S754_nan => false
  | _ => true
  end.

(** [x > y] on numbers. *)
Definition js_gt (x y : number) : bool := SFltb y x.

(** [`${n}`] for an integer-valued number. *)
Definition string_of_Z (n : Z) : string := NilZero.string_of_int (Z.to_int n).

(** Error objects: the script inspects [e.name] and [e.message] only. *)
Record js_error := mkError { name : string; message : option string }.

(** [new SalienScriptException(message)] *)
Definition SalienScriptException (message : option string) : js_error :=
  mkError "SalienScriptException" message.

(** [new SalienScriptRestart(message)] *)
Definition SalienScriptRestart (message : option string) : js_error :=
  mkError "SalienScriptRestart" message.

(** The engine's error for a property read on [undefined] or [null]
    (wording of V8). *)
Definition TypeError (property subject : string) : js_error :=
  mkError "TypeError"
    (Some ("Cannot read property '" ++ property ++ "' of " ++ subject)).

(** ** Data model: the JSON payloads of the API *)

(** A zone of a planet.  A field that the payload may omit is an [option]
    ([None] is [undefined]). *)
Record Zone := mkZone {
  type : option Z;
  difficulty : option Z;
  capture_progress : option number;
  captured : option bool
}.

Record PlanetState := mkPlanetState {
  state_name : string;
  state_capture_progress : number;
  state_current_players : Z
}.

Record Planet := mkPlanet {
  id : string;
  state : option PlanetState;
  zones : option (list Zone)
}.

(** The value of the [response] property of a decoded body. *)
Record payload := mkPayload { planets : option (list Planet) }.

(** A decoded JSON body, up to what [RequestAPI] can observe of it:
    [JsonNull] is [null]; [JsonFalsy] is [false], [0] or the empty string;
    [JsonObject r] is any truthy value, [r] being its [response] property
    ([None] when it has none, or when that is [null]). *)
Inductive body :=
| JsonNull
| JsonFalsy
| JsonObject (response : option payload).

Definition truthy_body (b : body) : bool :=
  match b with
  | JsonObject _ => true
  | _ => false
  end.

(** [!response] for the loop variable [let response;]. *)
Definition truthy_response (response : option body) : bool :=
  match response with
  | Some b => truthy_body b
  | None => false
  end.

(** ** Requests *)

(** The [options] object handed to [fetch]. *)
Record fetch_options := mkOptions {
  opt_retries : Z;
  opt_retryDelay : Z;
  opt_headers : list (string * string);
  opt_method : option string
}.

(** [additionalOptions]: the keys it defines replace the defaults. *)
Record additional_options := mkAdditional {
  add_retries : option Z;
  add_retryDelay : option Z;
  add_headers : option (list (string * string));
  add_method : option string
}.

Definition no_additional : additional_options := mkAdditional None None None None.

Definition spread {A} (default : A) (over : option A) : A :=
  match over with
  | Some a => a
  | None => default
  end.

Definition make_options (additionalOptions : additional_options) : fetch_options :=
  mkOptions
    (spread 3 (add_retries additionalOptions))
    (spread 1000 (add_retryDelay additionalOptions))
    (spread
       [("Accept", "*/*");
        ("Origin", "https://steamcommunity.com");
        ("Referer", "https://steamcommunity.com/saliengame/play/");
        ("User-Agent",
         "Mozilla/5.0 (Windows NT 10.0; Win64; x64) AppleWebKit/537.36 (KHTML, like Gecko) Chrome/67.0.3396.87 Safari/537.36")]
       (add_headers additionalOptions))
    (add_method additionalOptions).

(** What one [fetch(url, options)] followed by [request.json()] gives:
    either of the two throws, or a body is decoded. *)
Inductive attempt :=
| Fail (e : js_error)
| Body (b : body).

(** One scripted reply of the endpoint. *)
Definition handler := string -> fetch_options -> attempt.

(** The lines written through [logger], [debug] and [console.log], with the
    values interpolated in them (colours and time stamps left out). *)
Inductive log_line :=
| LogSending (method : string)
| LogError (name method : string)
| LogDebug (e : js_error)
| LogRetrying (method : string) (seconds : Z)
| LogUnknownZoneType (type : option Z)
| LogPlanet (id : string) (hard medium easy : Z) (progress : number)
    (players : Z) (name : string)
| LogUnknownZones (n : Z)
| LogBossSelected
| LogCurrentPlanet (id : option string).

Inductive event :=
| Fetch (url : string) (options : fetch_options)
| Delay (ms : Z)
| Log (l : log_line).

(** ** The instance and the monad *)

(** The fields of a [SalienScript] instance. *)
Record SalienScript := mkSalienScript {
  token : string;
  clan : option string;
  maxRetries : Z;
  defaultDelayMs : Z;
  defaultDelaySec : Z;
  tempPlanetId : option string;
  currentPlanetId : option string;
  knownPlanets : list string
}.

(** [constructor({ token, clan })] *)
Definition constructor (token : string) (clan : option string) : SalienScript :=
  mkSalienScript token clan 2 5000 (5000 / 1000) None None [].

Record world := mkWorld {
  this : SalienScript;
  script : list handler;
  trace : list event
}.

(** [Pending]: the awaited call never settles, the script of the endpoint
    holding no further reply. *)
Inductive result (A : Type) :=
| Ok (a : A)
| Throw (e : js_error)
| Pending.

Arguments Ok {A} a.
Arguments Throw {A} e.
Arguments Pending {A}.

Definition M (A : Type) : Type := world -> world * result A.

Definition ret {A} (a : A) : M A := fun w => (w, Ok a).

Definition bind {A B} (m : M A) (k : A -> M B) : M B :=
  fun w =>
    match m w with
    | (w', Ok a) => k a w'
    | (w', Throw e) => (w', Throw e)
    | (w', Pending) => (w', Pending)
    end.

Definition throw {A} (e : js_error) : M A := fun w => (w, Throw e).

(** [try { m } catch (e) { handle e }] *)
Definition try_catch {A} (m : M A) (handle : js_error -> M A) : M A :=
  fun w =>
    match m w with
    | (w', Throw e) => handle e w'
    | r => r
    end.

Declare Scope js_scope.
Delimit Scope js_scope with js.
Notation "x <- m ;; k" := (bind m (fun x => k))
  (at level 61, m at next level, right associativity) : js_scope.
Notation "m ;; k" := (bind m (fun _ => k))
  (at level 61, right associativity) : js_scope.
Local Open Scope js_scope.

Definition gets {A} (f : SalienScript -> A) : M A := fun w => (w, Ok (f (this w))).

Definition emit (e : event) : M unit :=
  fun w => (mkWorld (this w) (script w) (trace w ++ [e]), Ok tt).

Definition logger (l : log_line) : M unit := emit (Log l).

Definition debug (e : js_error) : M unit := emit (Log (LogDebug e)).

Definition delay (ms : Z) : M unit := emit (Delay ms).

(** [await fetch(url, options)] then [await request.json()]. *)
Definition fetch_json (url : string) (options : fetch_options) : M body :=
  fun w =>
    match script w with
    | [] => (w, Pending)
    | h :: rest =>
        let w' := mkWorld (this w) rest (trace w ++ [Fetch url options]) in
        match h url options with
        | Fail e => (w', Throw e)
        | Body b => (w', Ok b)
        end
    end.

(** [while (cond x) { x = body x }]: [fuel] bounds the number of rounds. *)
Fixpoint while_ {S : Type} (fuel : nat) (cond : S -> bool) (body : S -> M S)
  (x : S) : M S :=
  if cond x then
    match fuel with
    | O => fun w => (w, Pending)
    | Datatypes.S fuel' => x' <- body x ;; while_ fuel' cond body x'
    end
  else ret x.

(** A loop each round of which awaits a reply of the endpoint runs at most
    as many full rounds as the script has replies. *)
Definition while_await {S : Type} (cond : S -> bool) (body : S -> M S)
  (x : S) : M S :=
  fun w => while_ (Datatypes.S (List.length (script w))) cond body x w.

(** ** RequestAPI *)

Definition build_url (method : string) (params : option (list string)) : string :=
  let url := "https://community.steam-api.com/" ++ method ++ "/v0001" in
  match params with
  | Some params =>
      let url := url ++ "/?" in
      let url := fold_left (fun url param => url ++ (param ++ "&")) params url in
      substring 0 (String.length url - 1) url
  | None => url
  end.

(** One round of the loop of [RequestAPI], on the loop variables
    [(response, retries)]. *)
Definition request_round (method url : string) (options : fetch_options)
  (maxRetries : Z) (vars : option body * Z) : M (option body * Z) :=
  let '(response, retries) := vars in
  try_catch
    (logger (LogSending method) ;;
     response <- fetch_json url options ;;
     ret (Some response, retries))
    (fun e =>
       logger (LogError (name e) method) ;;
       debug e ;;
       let retries := retries + 1 in
       (if retries <? maxRetries then
          seconds <- gets defaultDelaySec ;;
          logger (LogRetrying method seconds)
        else
          throw (SalienScriptException
                   (Some ("Failed " ++ method ++ " after "
                            ++ string_of_Z retries ++ " retries")))) ;;
       ms <- gets defaultDelayMs ;;
       delay ms ;;
       ret (response, retries)).

(** [response.response] *)
Definition get_response (response : option body) : M (option payload) :=
  match response with
  | None => throw (TypeError "response" "undefined")
  | Some JsonNull => throw (TypeError "response" "null")
  | Some JsonFalsy => ret None
  | Some (JsonObject r) => ret r
  end.

(** [!response && retries < maxRetries] *)
Definition request_again (maxRetries : Z) (vars : option body * Z) : bool :=
  negb (truthy_response (fst vars)) && (snd vars <? maxRetries).

Definition RequestAPI (method : string) (params : option (list string))
  (maxRetries : Z) (additionalOptions : additional_options) : M (option payload) :=
  let url := build_url method params in
  let options := make_options additionalOptions in
  vars <- while_await (request_again maxRetries)
            (request_round method url options maxRetries)
            (None, 0) ;;
  get_response (fst vars).

(** [response.planets] *)
Definition get_planets (response : option payload) : M (option (list Planet)) :=
  match response with
  | None => throw (TypeError "planets" "undefined")
  | Some r => ret (planets r)
  end.

Definition ApiGetPlanets : M (option (list Planet)) :=
  maxRetries <- gets maxRetries ;;
  response <- RequestAPI "ITerritoryControlMinigameService/GetPlanets"
                (Some ["active_only=1"]) maxRetries no_additional ;;
  get_planets response.

(** [response.planets[0]] *)
Definition get_first_planet (response : option payload) : M (option Planet) :=
  planets <- get_planets response ;;
  match planets with
  | None => throw (TypeError "0" "undefined")
  | Some l => ret (hd_error l)
  end.

Definition ApiGetPlanet (planetId : string) : M (option Planet) :=
  maxRetries <- gets maxRetries ;;
  response <- RequestAPI "ITerritoryControlMinigameService/GetPlanet"
                (Some ["id=" ++ planetId; "language=english"]) maxRetries no_additional ;;
  get_first_planet response.

(** ** setupGame: the selection pass *)

(** [asyncForEach(_this, array, callback)]: the callback is awaited on each
    element in turn; an exception it throws ends the loop.  (The index, the
    array and [_this] that the source also passes are the position in the
    list, the list itself and the instance held by the monad.) *)
Fixpoint asyncForEach {A : Type} (array : list A) (callback : A -> M unit) : M unit :=
  match array with
  | [] => ret tt
  | x :: rest => callback x ;; asyncForEach rest callback
  end.

(** The local variables of the callback that the scan of the zones updates. *)
Record counters := mkCounters {
  hardZones : Z;
  mediumZones : Z;
  easyZones : Z;
  unknownZones : Z;
  hasBossZone : bool
}.

(** [let hardZones = 0; ... let hasBossZone = true;] *)
Definition initial_counters : counters := mkCounters 0 0 0 0 true.

(** [zone.capture_progress && zone.capture_progress > 0.97] *)
Definition nearly_captured (zone : Zone) : bool :=
  match capture_progress zone with
  | Some p => truthy_number p && js_gt p js_0_97
  | None => false
  end.

(** [zone.captured], as a condition *)
Definition is_captured (zone : Zone) : bool :=
  match captured zone with
  | Some b => b
  | None => false
  end.

(** [value === n] for a numeric field that may be absent. *)
Definition strict_eq (value : option Z) (n : Z) : bool :=
  match value with
  | Some v => v =? n
  | None => false
  end.

(** The callback of [zones.zones.forEach]. *)
Definition scan_zone (c : counters) (zone : Zone) : M counters :=
  if nearly_captured zone || is_captured zone then ret c
  else
    c <- (if strict_eq (type zone) 4 then
            ret (mkCounters (hardZones c) (mediumZones c) (easyZones c)
                   (unknownZones c) true)
          else if negb (strict_eq (type zone) 3) then
            logger (LogUnknownZoneType (type zone)) ;; ret c
          else ret c) ;;
    ret (if strict_eq (difficulty zone) 3 then
           mkCounters (hardZones c + 1) (mediumZones c) (easyZones c)
             (unknownZones c) (hasBossZone c)
         else if strict_eq (difficulty zone) 2 then
           mkCounters (hardZones c) (mediumZones c + 1) (easyZones c)
             (unknownZones c) (hasBossZone c)
         else if strict_eq (difficulty zone) 1 then
           mkCounters (hardZones c) (mediumZones c) (easyZones c + 1)
             (unknownZones c) (hasBossZone c)
         else
           mkCounters (hardZones c) (mediumZones c) (easyZones c)
             (unknownZones c + 1) (hasBossZone c)).

(** [zones.forEach(callback)] on the local variables. *)
Fixpoint forEach_zone (zones : list Zone) (c : counters) : M counters :=
  match zones with
  | [] => ret c
  | zone :: rest => c <- scan_zone c zone ;; forEach_zone rest c
  end.

(** The instance after [knownPlanets.push(planetId)]. *)
Definition with_known (t : SalienScript) (planetId : string) : SalienScript :=
  mkSalienScript (token t) (clan t) (maxRetries t) (defaultDelayMs t)
    (defaultDelaySec t) (tempPlanetId t) (currentPlanetId t)
    (knownPlanets t ++ [planetId]).

(** The instance after [currentPlanetId = planetId]. *)
Definition with_current (t : SalienScript) (planetId : string) : SalienScript :=
  mkSalienScript (token t) (clan t) (maxRetries t) (defaultDelayMs t)
    (defaultDelaySec t) (tempPlanetId t) (Some planetId) (knownPlanets t).

(** [_this.knownPlanets.push(planet.id)] *)
Definition push_knownPlanets (planetId : string) : M unit :=
  fun w => (mkWorld (with_known (this w) planetId) (script w) (trace w), Ok tt).

(** [_this.currentPlanetId = planet.id] *)
Definition set_currentPlanetId (planetId : string) : M unit :=
  fun w => (mkWorld (with_current (this w) planetId) (script w) (trace w), Ok tt).

(** [!zones] *)
Definition no_zones (zones : option Planet) : bool :=
  match zones with
  | Some _ => false
  | None => true
  end.

(** [let zones; while (!zones) { zones = await _this.ApiGetPlanet(planet.id); }] *)
Definition wait_zones (planetId : string) : M (option Planet) :=
  while_await no_zones (fun _ => ApiGetPlanet planetId) None.

(** The callback that [setupGame] hands to [asyncForEach]; [fetched] is the
    source's local variable [zones], which holds the planet detail. *)
Definition scan_planet (planet : Planet) : M unit :=
  push_knownPlanets (id planet) ;;
  fetched <- wait_zones (id planet) ;;
  list_of_zones <-
    (match fetched with
     | None => throw (TypeError "zones" "undefined")
     | Some detail =>
         match zones detail with
         | None => throw (TypeError "forEach" "undefined")
         | Some l => ret l
         end
     end) ;;
  c <- forEach_zone list_of_zones initial_counters ;;
  st <- (match state planet with
         | None => throw (TypeError "capture_progress" "undefined")
         | Some st => ret st
         end) ;;
  logger (LogPlanet (id planet) (hardZones c) (mediumZones c) (easyZones c)
            (state_capture_progress st) (state_current_players st)
            (state_name st)) ;;
  (if unknownZones c =? 0 then ret tt
   else logger (LogUnknownZones (unknownZones c))) ;;
  if hasBossZone c then
    set_currentPlanetId (id planet) ;;
    throw (SalienScriptException None)
  else ret tt.

Definition setupGame : M unit :=
  planets <- ApiGetPlanets ;;
  match planets with
  | None => throw (SalienScriptException (Some "Didn't find any planets."))
  | Some planets =>
      try_catch
        (asyncForEach planets scan_planet)
        (fun e =>
           if String.eqb (name e) "SalienScriptException" then
             logger LogBossSelected
           else
             debug e ;;
             throw (SalienScriptException (message e))) ;;
      chosen <- gets currentPlanetId ;;
      logger (LogCurrentPlanet chosen)
  end.

(** ** Vocabulary of the specification *)

(** The difficulty buckets of a planet. *)
Inductive bucket := Hard | Medium | Easy | Unknown.

Definition bucket_eqb (a b : bucket) : bool :=
  match a, b with
  | Hard, Hard | Medium, Medium | Easy, Easy | Unknown, Unknown => true
  | _, _ => false
  end.

(** The count that the scan keeps for a bucket. *)
Definition count (b : bucket) (c : counters) : Z :=
  match b with
  | Hard => hardZones c
  | Medium => mediumZones c
  | Easy => easyZones c
  | Unknown => unknownZones c
  end.


(** The number of calls of [fetch] in a trace, and the waits in it. *)
Fixpoint fetch_count (tr : list event) : nat :=
  match tr with
  | [] => O
  | Fetch _ _ :: tr => S (fetch_count tr)
  | _ :: tr => fetch_count tr
  end.

Fixpoint delays (tr : list event) : list Z :=
  match tr with
  | [] => []
  | Delay ms :: tr => ms :: delays tr
  | _ :: tr => delays tr
  end.

(** The URLs requested in a trace, in order. *)
Fixpoint fetched_urls (tr : list event) : list string :=
  match tr with
  | [] => []
  | Fetch url _ :: tr => url :: fetched_urls tr
  | _ :: tr => fetched_urls tr
  end.

(** The attempt fails at transport level: [fetch] or [request.json()] throws. *)
Definition fails_on (url : string) (options : fetch_options) (h : handler) : Prop :=
  exists e, h url options = Fail e.

(** Between the worlds [w] and [w'] exactly [N] attempts were made, all on
    [url], each consuming one reply of the script (so that [rest] is left),
    with a wait of 5000 ms between two consecutive attempts; the instance
    is unchanged. *)
Definition attempted (N : Z) (url : string) (rest : list handler) (w w' : world) : Prop :=
  this w' = this w
  /\ script w' = rest
  /\ exists new,
       trace w' = (trace w ++ new)%list
       /\ Z.of_nat (fetch_count new) = N
       /\ fetched_urls new = repeat url (Z.to_nat N)
       /\ delays new = repeat 5000 (Z.to_nat (N - 1)).

(** The boolean form of [excluded]. *)
Definition excluded_b (zone : Zone) : bool :=
  (match captured zone with Some true => true | _ => false end)
  || (match capture_progress zone with Some p => js_gt p js_0_97 | None => false end).

(** The bucket that a zone's difficulty tier names. *)
Definition bucket_of (zone : Zone) : bucket :=
  if strict_eq (difficulty zone) 3 then Hard
  else if strict_eq (difficulty zone) 2 then Medium
  else if strict_eq (difficulty zone) 1 then Easy
  else Unknown.

(** The number of eligible zones of a zone list that fall in a bucket. *)
Definition tally (zones : list Zone) (b : bucket) : Z :=
  Z.of_nat
    (List.length
       (filter (fun zone => negb (excluded_b zone) && bucket_eqb (bucket_of zone) b)
          zones)).

(** An eligible zone of the boss type. *)
Definition eligible_boss (zone : Zone) : bool :=
  negb (excluded_b zone) && strict_eq (type zone) 4.

(** The selection that the specification words: the first planet, in the
    order returned, whose detail has an eligible boss zone. *)
Definition spec_selection (details : list Planet) : option string :=
  option_map id
    (find (fun detail =>
             match zones detail with
             | Some l => existsb eligible_boss l
             | None => false
             end) details).

(** The URL of the detail of a planet. *)
Definition detail_url (planetId : string) : string :=
  build_url "ITerritoryControlMinigameService/GetPlanet"
    (Some [ ("id=" ++ planetId)%string; "language=english" ]).

(** The reply to the detail request of a planet is the envelope whose
    [planets] array is [l]. *)
Definition answers (planetId : string) (l : list Planet) (h : handler) : Prop :=
  h (detail_url planetId) (make_options no_additional)
  = Body (JsonObject (Some (mkPayload (Some l)))).

(** What a scan of [planets] leaves behind between two worlds: the ids of the
    planets scanned (a prefix of the list, in its order) were appended to
    [knownPlanets], and every request made was for the detail of one of
    them. *)
Definition scan_record (planets : list Planet) (w w' : world) : Prop :=
  exists scanned unscanned new,
    planets = (scanned ++ unscanned)%list
    /\ knownPlanets (this w') = (knownPlanets (this w) ++ map id scanned)%list
    /\ trace w' = (trace w ++ new)%list
    /\ Forall (fun url => In url (map (fun planet => detail_url (id planet)) scanned))
         (fetched_urls new).

(** The planets that a pass scans, from the world [w] in which its loop
    starts: those on which [asyncForEach] calls the callback, that is the
    first planet of the list, and each next one as long as the callback
    before it returned. *)
Fixpoint scanned_planets (planets : list Planet) (w : world) : list Planet :=
  match planets with
  | [] => []
  | planet :: rest =>
      planet :: match scan_planet planet w with
                | (w', Ok _) => scanned_planets rest w'
                | _ => []
                end
  end.

(** ** Relations between the worlds of a run *)

(** [keeps I m]: every run of [m] relates the world it starts in to the world
    it ends in by [I], however it ends. *)
Definition keeps {A : Type} (I : world -> world -> Prop) (m : M A) : Prop :=
  forall w w' r, m w = (w', r) -> I w w'.

(** The instance is untouched, the script lost some replies at its head, and
    every request made went to [url]. *)
Definition requests (url : string) (w w' : world) : Prop :=
  this w' = this w
  /\ (exists used, script w = (used ++ script w')%list)
  /\ exists new, trace w' = (trace w ++ new)%list /\ Forall (eq url) (fetched_urls new).

(** [knownPlanets] is untouched and every request made went to [url]. *)
Definition scans (url : string) (w w' : world) : Prop :=
  knownPlanets (this w') = knownPlanets (this w)
  /\ exists new, trace w' = (trace w ++ new)%list /\ Forall (eq url) (fetched_urls new).

(** The settings of an instance, which no method assigns. *)
Definition same_settings (a b : SalienScript) : Prop :=
  maxRetries a = maxRetries b
  /\ defaultDelayMs a = defaultDelayMs b
  /\ defaultDelaySec a = defaultDelaySec b.

(** Two runs, from the instances [a] and [b] to [a'] and [b'], made the same
    choice: both left [currentPlanetId] as it was, or both ended with the
    same id in it. *)
Definition same_choice (a a' b b' : SalienScript) : Prop :=
  (currentPlanetId a' = currentPlanetId a /\ currentPlanetId b' = currentPlanetId b)
  \/ currentPlanetId a' = currentPlanetId b'.

(** A world in front of an unchanged snapshot: every reply of the script is
    [h], a function of the URL and the options. *)
Definition on_snapshot (h : handler) (w : world) : Prop :=
  exists n, script w = repeat h n.

(** A run from [w] to [w'] stayed in front of the snapshot and kept the
    settings of its instance. *)
Definition stable (h : handler) (w w' : world) : Prop :=
  on_snapshot h w' /\ same_settings (this w) (this w').

(** Two computations agree: run against the snapshot from instances with
    the same settings, if both settle they settle alike. *)
Definition agree {A : Type} (h : handler) (ma mb : M A) : Prop :=
  forall wa wb wa' wb' ra rb,
    on_snapshot h wa -> on_snapshot h wb ->
    same_settings (this wa) (this wb) ->
    ma wa = (wa', ra) -> mb wb = (wb', rb) ->
    ra <> Pending -> rb <> Pending ->
    ra = rb /\ stable h wa wa' /\ stable h wb wb'
    /\ same_choice (this wa) (this wa') (this wb) (this wb').

(** ** Sample replies and planets *)

(** A reply whose body is the envelope [{ response: { planets } }]. *)
Definition reply (planets : option (list Planet)) : handler :=
  fun _ _ => Body (JsonObject (Some (mkPayload planets))).

(** A reply that fails at transport level. *)
Definition transport_failure : handler :=
  fun _ _ => Fail (mkError "FetchError" (Some "network timeout")).

(** A fresh instance in front of a scripted endpoint. *)
Definition fresh (replies : list handler) : world :=
  mkWorld (constructor "token" None) replies [].

(** The binary64 value nearest to 0.98. *)
Definition js_0_98 : number := S754_finite false 8827055269646172 (-53).

Definition normal_zone : Zone := mkZone (Some 3) (Some 2) None (Some false).
Definition boss_zone : Zone := mkZone (Some 4) (Some 3) None (Some false).
Definition captured_boss_zone : Zone := mkZone (Some 4) (Some 3) None (Some true).
Definition nearly_captured_zone : Zone := mkZone (Some 3) (Some 1) (Some js_0_98) (Some false).

Definition planet_A : Planet :=
  mkPlanet "A" (Some (mkPlanetState "#TerritoryControl_Planet_A" js_0_97 10)) None.
Definition planet_B : Planet :=
  mkPlanet "B" (Some (mkPlanetState "#TerritoryControl_Planet_B" js_0_97 20)) None.
Definition planet_C : Planet :=
  mkPlanet "C" (Some (mkPlanetState "#TerritoryControl_Planet_C" js_0_97 30)) None.

(** Planet details: A has no boss zone, B and C have one. *)
Definition detail_A : Planet :=
  mkPlanet "A" (state planet_A) (Some [ normal_zone; nearly_captured_zone ]).
Definition detail_B : Planet :=
  mkPlanet "B" (state planet_B) (Some [ normal_zone; boss_zone ]).
Definition detail_C : Planet :=
  mkPlanet "C" (state planet_C) (Some [ boss_zone ]).

(** An unchanged snapshot of the API: the reply depends on the URL only. *)
Definition snapshot_ABC : handler :=
  fun url options =>
    if String.eqb url (build_url "ITerritoryControlMinigameService/GetPlanets"
                         (Some [ "active_only=1" ]))
    then reply (Some [ planet_A; planet_B; planet_C ]) url options
    else if String.eqb url (detail_url "A") then reply (Some [ detail_A ]) url options
    else if String.eqb url (detail_url "B") then reply (Some [ detail_B ]) url options
    else if String.eqb url (detail_url "C") then reply (Some [ detail_C ]) url options
    else transport_failure url options.

(** ** The other endpoints, getFirstAvailablePlanet, gameLoop and init *)

(** [{ method: 'POST' }] *)
Definition post : additional_options := mkAdditional None None None (Some "POST").

Definition ApiGetPlayerInfo : M (option payload) :=
  token <- gets token ;;
  maxRetries <- gets maxRetries ;;
  response <- RequestAPI "ITerritoryControlMinigameService/GetPlayerInfo"
                (Some [ "access_token=" ++ token ]) maxRetries post ;;
  ret response.

Definition ApiRepresentClan (clanId : string) : M (option payload) :=
  token <- gets token ;;
  maxRetries <- gets maxRetries ;;
  response <- RequestAPI "ITerritoryControlMinigameService/RepresentClan"
                (Some [ "access_token=" ++ token; "clanid=" ++ clanId ]) maxRetries post ;;
  ret response.

Definition ApiLeaveGame (gameId : string) : M (option payload) :=
  token <- gets token ;;
  maxRetries <- gets maxRetries ;;
  response <- RequestAPI "IMiniGameService/LeaveGame"
                (Some [ "access_token=" ++ token; "gameid=" ++ gameId ]) maxRetries post ;;
  ret response.

Definition ApiJoinPlanet (planetId : string) : M (option payload) :=
  token <- gets token ;;
  maxRetries <- gets maxRetries ;;
  response <- RequestAPI "ITerritoryControlMinigameService/JoinPlanet"
                (Some [ "access_token=" ++ token; "id=" ++ planetId ]) maxRetries post ;;
  ret response.

Definition getFirstAvailablePlanet : M unit :=
  planets <- ApiGetPlanets ;;
  match planets with
  | None => throw (SalienScriptException (Some "Didn't find any planets."))
  | Some _ => ret tt
  end.

Definition gameLoop : M unit :=
  throw (SalienScriptException (Some "gameLoop() not yet implemented")).

(** The lines that [init] writes through [logger]. *)
Inductive init_line :=
| LogStarted (version : string)
| LogFailure (name : string) (message : option string)
| LogRestart (seconds : Z).

(** A running script: its world, and the lines of [init], each with the
    number of events of the trace that precede it. *)
Record process := mkProcess {
  run : world;
  console : list (nat * init_line)
}.

Definition init_logger (l : init_line) (p : process) : process :=
  mkProcess (run p) (console p ++ [ (List.length (trace (run p)), l) ])%list.

(** The [try] block of [init] after its first line:
    [await this.setupGame(); while (true) { await this.gameLoop(); }].
    A round of the loop that returned would be followed by another one. *)
Definition init_try : M unit :=
  setupGame ;;
  while_ 1 (fun _ : unit => true) (fun _ => gameLoop) tt.

(** One entry of [init], up to its last statement [this.init()]: [Ok] when
    that statement is reached.  [pkgVersion] is the version read from
    [package.json]. *)
Definition init_round (pkgVersion : string) (p : process) : process * result unit :=
  let p := init_logger (LogStarted pkgVersion) p in
  match init_try (run p) with
  | (w, Throw e) =>
      let p := init_logger (LogFailure (name e) (message e)) (mkProcess w (console p)) in
      let p := init_logger (LogRestart (defaultDelaySec (this (run p)))) p in
      (mkProcess (fst (delay (defaultDelayMs (this (run p))) (run p))) (console p), Ok tt)
  | (w, r) => (mkProcess w (console p), r)
  end.

(** [init], followed through [entries] entries: the last statement
    [this.init()] of an entry is the next entry. *)
Fixpoint init (pkgVersion : string) (entries : nat) (p : process) : process :=
  match entries with
  | O => p
  | Datatypes.S entries =>
      match init_round pkgVersion p with
      | (p', Ok _) => init pkgVersion entries p'
      | (p', _) => p'
      end
  end.

(** ** Vocabulary of the further properties *)

(** The requests of a trace, each with its options. *)
Fixpoint fetched (tr : list event) : list (string * fetch_options) :=
  match tr with
  | [] => []
  | Fetch url options :: tr => (url, options) :: fetched tr
  | _ :: tr => fetched tr
  end.

(** The instance is untouched and every request made was [url] with
    [options]. *)
Definition sends (url : string) (options : fetch_options) (w w' : world) : Prop :=
  this w' = this w
  /\ exists new,
       trace w' = (trace w ++ new)%list
       /\ Forall (eq (url, options)) (fetched new).

(** The reply decodes to a falsy body ([null], [false], [0] or [""]). *)
Definition falsy_reply (url : string) (options : fetch_options) (h : handler) : Prop :=
  exists b, h url options = Body b /\ truthy_body b = false.

(** The number of eligible zones of a list. *)
Definition eligible_count (zones : list Zone) : Z :=
  Z.of_nat (List.length (filter (fun zone => negb (excluded_b zone)) zones)).

(** What a pass may do to the instance, [first] being the id of the first
    planet of the list if there is one: nothing; or record that id; or
    record it and choose it. *)
Definition pass_effect (first : option string) (t t' : SalienScript) : Prop :=
  t' = t
  \/ exists planetId,
       first = Some planetId
       /\ (t' = with_known t planetId
           \/ t' = with_current (with_known t planetId) planetId).

(** [knownPlanets] only grew and the settings are the same. *)
Definition grows (t t' : SalienScript) : Prop :=
  same_settings t t' /\ exists added, knownPlanets t' = (knownPlanets t ++ added)%list.

(** * Properties *)

(** ** Strings *)

Lemma append_assoc (a b c : string) : ((a ++ b) ++ c = a ++ (b ++ c))%string.
Proof. induction a as [|ch a IH]; simpl; [reflexivity | now rewrite IH]. Qed.

Lemma length_append (a b : string) :
  String.length (a ++ b) = (String.length a + String.length b)%nat.
Proof. induction a as [|ch a IH]; simpl; [reflexivity | now rewrite IH]. Qed.

Lemma substring_prefix (a b : string) : substring 0 (String.length a) (a ++ b) = a.
Proof.
  induction a as [|ch a IH]; simpl.
  - now destruct b.
  - now rewrite IH.
Qed.

(** Dropping the last character of a string that ends in a separator. *)
Lemma drop_trailing (a : string) :
  substring 0 (String.length (a ++ "&") - 1) (a ++ "&") = a.
Proof.
  rewrite length_append; simpl String.length.
  replace (String.length a + 1 - 1)%nat with (String.length a) by lia.
  apply substring_prefix.
Qed.

(** What the [forEach] of [RequestAPI] appends to the URL. *)
Lemma fold_params (params : list string) (url : string) :
  fold_left (fun url param => url ++ (param ++ "&")) params url
  = (url ++ String.concat "" (map (fun param => param ++ "&") params))%string.
Proof.
  revert url; induction params as [|p ps IH]; intro url; simpl.
  - induction url as [|ch url IHu]; simpl; [reflexivity | now rewrite <- IHu].
  - rewrite IH. destruct ps as [|q ps]; simpl.
    + rewrite !append_assoc. reflexivity.
    + rewrite !append_assoc. reflexivity.
Qed.

Lemma concat_with_separator (params : list string) :
  params <> [] ->
  String.concat "" (map (fun param => param ++ "&") params)
  = (String.concat "&" params ++ "&")%string.
Proof.
  induction params as [|p ps IH]; [congruence | intros _].
  destruct ps as [|q ps].
  - reflexivity.
  - change (String.concat "" (map (fun param => param ++ "&") (p :: q :: ps)))
      with ((p ++ "&") ++ String.concat "" (map (fun param => param ++ "&") (q :: ps)))%string.
    rewrite IH by congruence.
    change (String.concat "&" (p :: q :: ps))
      with (p ++ "&" ++ String.concat "&" (q :: ps))%string.
    rewrite !append_assoc. reflexivity.
Qed.

(** C4. For every method name and every non-empty list of [key=value]
    parameters, the URL that [RequestAPI] requests is the base host, the
    method, the suffix [/v0001/?] and the parameters joined by [&], with no
    trailing separator. *)
Theorem build_url_joins_params (method : string) (params : list string) :
  params <> [] ->
  build_url method (Some params)
  = ("https://community.steam-api.com/" ++ method ++ "/v0001/?"
       ++ String.concat "&" params)%string.
Proof.
  intro Hne. unfold build_url.
  rewrite fold_params, concat_with_separator by assumption.
  rewrite <- !append_assoc. rewrite drop_trailing.
  rewrite !append_assoc. reflexivity.
Qed.

Lemma build_url_joins_params_witness :
  [ "id=5"; "language=english" ] <> []
  /\ build_url "X" (Some [ "id=5"; "language=english" ])
     = "https://community.steam-api.com/X/v0001/?id=5&language=english".
Proof.
  split; [discriminate |].
  exact (build_url_joins_params "X" [ "id=5"; "language=english" ]
           ltac:(discriminate)).
Defined.

(** The URL handed to [fetch] by [RequestAPI] is [build_url]'s. *)
Example RequestAPI_fetches_built_url :
  trace (fst (RequestAPI "X" (Some [ "id=5"; "language=english" ]) 1 no_additional
                (mkWorld (constructor "t" None)
                   [fun _ _ => Body (JsonObject None)] [])))
  = [ Log (LogSending "X");
      Fetch "https://community.steam-api.com/X/v0001/?id=5&language=english"
        (make_options no_additional) ].
Proof. reflexivity. Qed.

(** ** The scan of one zone *)

Lemma js_gt_0_97_truthy (p : number) : js_gt p js_0_97 = true -> truthy_number p = true.
Proof.
  destruct p as [s | s | | s m e]; intro H; try reflexivity;
    vm_compute in H; discriminate.
Qed.





(** ** The retry loop of RequestAPI *)

Local Open Scope list_scope.

Lemma fetch_count_app (a b : list event) :
  fetch_count (a ++ b) = (fetch_count a + fetch_count b)%nat.
Proof.
  induction a as [|[url o | ms | l] a IH]; simpl; auto.
Qed.

Lemma delays_app (a b : list event) : delays (a ++ b) = delays a ++ delays b.
Proof.
  induction a as [|[url o | ms | l] a IH]; simpl; auto. now rewrite IH.
Qed.

Lemma fetched_urls_app (a b : list event) :
  fetched_urls (a ++ b) = fetched_urls a ++ fetched_urls b.
Proof.
  induction a as [|[url o | ms | l] a IH]; simpl; auto. now rewrite IH.
Qed.

(** The two equations of a [while] loop. *)
Lemma while_enter {S : Type} (fuel : nat) (cond : S -> bool) (body : S -> M S)
  (x : S) (w : world) :
  cond x = true ->
  while_ (Datatypes.S fuel) cond body x w
  = match body x w with
    | (w', Ok x') => while_ fuel cond body x' w'
    | (w', Throw e) => (w', Throw e)
    | (w', Pending) => (w', Pending)
    end.
Proof. intro H. simpl. rewrite H. reflexivity. Qed.

Lemma while_exit {S : Type} (fuel : nat) (cond : S -> bool) (body : S -> M S)
  (x : S) (w : world) :
  cond x = false -> while_ fuel cond body x w = (w, Ok x).
Proof. intro H. destruct fuel; simpl; rewrite H; reflexivity. Qed.

Section RequestLoop.

Variables (method url : string) (options : fetch_options) (maxRetries : Z).

(** A failed attempt that is not the last one: the counter goes up by one
    and the loop waits [defaultDelayMs]. *)
Lemma request_round_retry (w : world) (h : handler) (tail : list handler)
  (e : js_error) (response : option body) (retries : Z) :
  script w = h :: tail ->
  h url options = Fail e ->
  retries + 1 < maxRetries ->
  request_round method url options maxRetries (response, retries) w
  = (mkWorld (this w) tail
       (trace w ++ [ Log (LogSending method); Fetch url options;
                     Log (LogError (name e) method); Log (LogDebug e);
                     Log (LogRetrying method (defaultDelaySec (this w)));
                     Delay (defaultDelayMs (this w)) ]),
     Ok (response, retries + 1)).
Proof.
  intros Hs Hh Hlt.
  unfold request_round, try_catch, bind, logger, debug, delay, emit, fetch_json,
    gets, ret; simpl.
  rewrite Hs, Hh; simpl.
  apply Z.ltb_lt in Hlt. rewrite Hlt; simpl.
  rewrite <- !app_assoc; simpl. reflexivity.
Qed.

(** The last failed attempt: the classified exception, and no wait. *)
Lemma request_round_exhausted (w : world) (h : handler) (tail : list handler)
  (e : js_error) (response : option body) (retries : Z) :
  script w = h :: tail ->
  h url options = Fail e ->
  maxRetries <= retries + 1 ->
  request_round method url options maxRetries (response, retries) w
  = (mkWorld (this w) tail
       (trace w ++ [ Log (LogSending method); Fetch url options;
                     Log (LogError (name e) method); Log (LogDebug e) ]),
     Throw (SalienScriptException
              (Some ("Failed " ++ method ++ " after "
                       ++ string_of_Z (retries + 1) ++ " retries")%string))).
Proof.
  intros Hs Hh Hge.
  unfold request_round, try_catch, bind, logger, debug, delay, emit, fetch_json,
    gets, ret, throw; simpl.
  rewrite Hs, Hh; simpl.
  apply Z.ltb_ge in Hge. rewrite Hge; simpl.
  rewrite <- !app_assoc; simpl. reflexivity.
Qed.

(** An attempt that decodes a body. *)
Lemma request_round_body (w : world) (h : handler) (tail : list handler)
  (b : body) (response : option body) (retries : Z) :
  script w = h :: tail ->
  h url options = Body b ->
  request_round method url options maxRetries (response, retries) w
  = (mkWorld (this w) tail
       (trace w ++ [ Log (LogSending method); Fetch url options ]),
     Ok (Some b, retries)).
Proof.
  intros Hs Hh.
  unfold request_round, try_catch, bind, logger, emit, fetch_json, ret; simpl.
  rewrite Hs, Hh; simpl.
  rewrite <- !app_assoc; simpl. reflexivity.
Qed.

(** A run of failed attempts below the ceiling. *)
Lemma request_loop_failing (failing : list handler) :
  forall (w : world) (tail : list handler) (retries : Z),
    Forall (fails_on url options) failing ->
    script w = failing ++ tail ->
    retries + Z.of_nat (List.length failing) < maxRetries ->
    exists new,
      fetch_count new = List.length failing
      /\ delays new = repeat (defaultDelayMs (this w)) (List.length failing)
      /\ fetched_urls new = repeat url (List.length failing)
      /\ forall fuel,
           while_ (List.length failing + fuel) (request_again maxRetries)
             (request_round method url options maxRetries) (None, retries) w
           = while_ fuel (request_again maxRetries)
               (request_round method url options maxRetries)
               (None, retries + Z.of_nat (List.length failing))
               (mkWorld (this w) tail (trace w ++ new)).
Proof.
  induction failing as [|h failing IH]; intros w tail retries Hall Hs Hlt.
  - exists []. repeat split; try reflexivity.
    intro fuel. simpl. rewrite Z.add_0_r, app_nil_r.
    destruct w as [t sc tr]; simpl in *. now subst.
  - inversion Hall as [|h' l' [e He] Hall']; subst.
    simpl List.length in Hlt. rewrite Nat2Z.inj_succ in Hlt.
    set (round := [ Log (LogSending method); Fetch url options;
                    Log (LogError (name e) method); Log (LogDebug e);
                    Log (LogRetrying method (defaultDelaySec (this w)));
                    Delay (defaultDelayMs (this w)) ]).
    set (w1 := mkWorld (this w) (failing ++ tail) (trace w ++ round)).
    assert (Hlt' : retries + 1 + Z.of_nat (List.length failing) < maxRetries) by lia.
    destruct (IH w1 tail (retries + 1) Hall' eq_refl Hlt')
      as [new [Hf [Hd [Hu Hrun]]]].
    exists (round ++ new). repeat split.
    + rewrite fetch_count_app, Hf. reflexivity.
    + rewrite delays_app, Hd. reflexivity.
    + rewrite fetched_urls_app, Hu. reflexivity.
    + intro fuel. simpl List.length. simpl Nat.add.
      rewrite while_enter by (unfold request_again; simpl; apply Z.ltb_lt; lia).
      rewrite (request_round_retry w h (failing ++ tail) e None retries Hs He)
        by lia.
      fold round. fold w1. rewrite Hrun. unfold w1; cbn [this trace].
      rewrite <- app_assoc.
      replace (retries + Z.of_nat (Datatypes.S (List.length failing)))
        with (retries + 1 + Z.of_nat (List.length failing)) by lia.
      reflexivity.
Qed.

End RequestLoop.

(** C3. With a retry ceiling [N >= 1], after [N - 1] attempts that fail at
    transport level: if attempt [N] decodes a body, [RequestAPI] returns its
    [response] after exactly [N] attempts; if attempt [N] fails too, it
    throws the [SalienScriptException] that carries the method name and the
    count [N], after exactly [N] attempts.  In both cases it waits 5000 ms
    between two consecutive attempts, [N - 1] times in all. *)
Theorem RequestAPI_retry_ceiling (N : Z) (method : string)
  (params : option (list string)) (additionalOptions : additional_options)
  (w : world) (failing : list handler) (last : handler) (rest : list handler) :
  1 <= N ->
  defaultDelayMs (this w) = 5000 ->
  script w = failing ++ last :: rest ->
  Z.of_nat (List.length failing) = N - 1 ->
  Forall (fails_on (build_url method params) (make_options additionalOptions)) failing ->
  (forall r,
      last (build_url method params) (make_options additionalOptions)
      = Body (JsonObject r) ->
      exists w',
        RequestAPI method params N additionalOptions w = (w', Ok r)
        /\ attempted N (build_url method params) rest w w')
  /\ (forall e,
         last (build_url method params) (make_options additionalOptions) = Fail e ->
         exists w',
           RequestAPI method params N additionalOptions w
           = (w', Throw (SalienScriptException
                           (Some ("Failed " ++ method ++ " after "
                                    ++ string_of_Z N ++ " retries")%string)))
           /\ attempted N (build_url method params) rest w w').
Proof.
  intros HN Hms Hs Hlen Hall.
  set (url := build_url method params) in *.
  set (options := make_options additionalOptions) in *.
  destruct (request_loop_failing method url options N failing w (last :: rest) 0
              Hall Hs ltac:(lia)) as [new [Hf [Hd [Hu Hrun]]]].
  assert (Hfuel : Datatypes.S (List.length (script w))
                  = (List.length failing + Datatypes.S (Datatypes.S (List.length rest)))%nat)
    by (rewrite Hs, length_app; simpl; lia).
  assert (Hto : Z.to_nat N = Datatypes.S (List.length failing)) by lia.
  assert (Hto' : Z.to_nat (N - 1) = List.length failing) by lia.
  set (w1 := mkWorld (this w) (last :: rest) (trace w ++ new)) in *.
  split.
  - intros r Hlast.
    eexists. split.
    + unfold RequestAPI, bind, while_await. fold url options.
      rewrite Hfuel, Hrun.
      rewrite while_enter by (unfold request_again; simpl; apply Z.ltb_lt; lia).
      rewrite (request_round_body method url options N w1 last rest
                 (JsonObject r) None _ eq_refl Hlast).
      rewrite while_exit by reflexivity.
      reflexivity.
    + repeat split. simpl.
      exists (new ++ [ Log (LogSending method); Fetch url options ]).
      rewrite fetch_count_app, fetched_urls_app, delays_app, Hf, Hd, Hu, Hms, Hto, Hto'.
      simpl. rewrite app_assoc, app_nil_r. repeat split.
      * lia.
      * rewrite <- repeat_cons. reflexivity.
  - intros e Hlast.
    eexists. split.
    + unfold RequestAPI, bind, while_await. fold url options.
      rewrite Hfuel, Hrun.
      rewrite while_enter by (unfold request_again; simpl; apply Z.ltb_lt; lia).
      rewrite (request_round_exhausted method url options N w1 last rest
                 e None _ eq_refl Hlast) by lia.
      replace (0 + Z.of_nat (List.length failing) + 1) with N by lia.
      reflexivity.
    + repeat split. simpl.
      exists (new ++ [ Log (LogSending method); Fetch url options;
                       Log (LogError (name e) method); Log (LogDebug e) ]).
      rewrite fetch_count_app, fetched_urls_app, delays_app, Hf, Hd, Hu, Hms, Hto, Hto'.
      simpl. rewrite app_assoc, app_nil_r. repeat split.
      * lia.
      * rewrite <- repeat_cons. reflexivity.
Qed.

Lemma RequestAPI_retry_ceiling_witness :
  (exists w',
      RequestAPI "X" (Some [ "id=5"%string ]) 3 no_additional
        (fresh [ transport_failure; transport_failure; reply None ])
      = (w', Ok (Some (mkPayload None)))
      /\ attempted 3 (build_url "X" (Some [ "id=5"%string ])) []
           (fresh [ transport_failure; transport_failure; reply None ]) w')
  /\ (exists w',
         RequestAPI "X" (Some [ "id=5"%string ]) 3 no_additional
           (fresh [ transport_failure; transport_failure; transport_failure ])
         = (w', Throw (SalienScriptException (Some "Failed X after 3 retries"%string)))
         /\ attempted 3 (build_url "X" (Some [ "id=5"%string ])) []
              (fresh [ transport_failure; transport_failure; transport_failure ]) w').
Proof.
  assert (Hall : Forall (fails_on (build_url "X" (Some [ "id=5"%string ]))
                           (make_options no_additional))
                   [ transport_failure; transport_failure ])
    by (repeat constructor; eexists; reflexivity).
  split.
  - apply (proj1 (RequestAPI_retry_ceiling 3 "X" (Some [ "id=5"%string ]) no_additional
                    (fresh [ transport_failure; transport_failure; reply None ])
                    [ transport_failure; transport_failure ] (reply None) []
                    ltac:(lia) eq_refl eq_refl eq_refl Hall)).
    reflexivity.
  - apply (proj2 (RequestAPI_retry_ceiling 3 "X" (Some [ "id=5"%string ]) no_additional
                    (fresh [ transport_failure; transport_failure; transport_failure ])
                    [ transport_failure; transport_failure ] transport_failure []
                    ltac:(lia) eq_refl eq_refl eq_refl Hall)
             (mkError "FetchError" (Some "network timeout"%string))).
    reflexivity.
Defined.

(** C10. With a ceiling of 0 the loop body never runs: [RequestAPI] makes no
    attempt (the script and the trace are untouched) and fails on
    [response.response] with the engine's [TypeError], which is not the
    classified [SalienScriptException]. *)
Theorem RequestAPI_zero_ceiling (method : string) (params : option (list string))
  (additionalOptions : additional_options) (w : world) :
  RequestAPI method params 0 additionalOptions w
  = (w, Throw (TypeError "response" "undefined"))
  /\ name (TypeError "response" "undefined") <> "SalienScriptException"%string.
Proof.
  split; [| discriminate].
  unfold RequestAPI, bind, while_await.
  rewrite while_exit by reflexivity.
  reflexivity.
Qed.

(** ** What a computation leaves unchanged *)

Section Keeps.

Variable I : world -> world -> Prop.
Hypothesis I_refl : forall w, I w w.
Hypothesis I_trans : forall w1 w2 w3, I w1 w2 -> I w2 w3 -> I w1 w3.

Lemma keeps_ret {A : Type} (a : A) : keeps I (ret a).
Proof. intros w w' r H. inversion H; subst. apply I_refl. Qed.

Lemma keeps_throw {A : Type} (e : js_error) : keeps I (@throw A e).
Proof. intros w w' r H. inversion H; subst. apply I_refl. Qed.

Lemma keeps_gets {A : Type} (f : SalienScript -> A) : keeps I (gets f).
Proof. intros w w' r H. inversion H; subst. apply I_refl. Qed.

Lemma keeps_bind {A B : Type} (m : M A) (k : A -> M B) :
  keeps I m -> (forall a, keeps I (k a)) -> keeps I (bind m k).
Proof.
  intros Hm Hk w w' r H. unfold bind in H.
  destruct (m w) as [w1 [a | e | ]] eqn:E; specialize (Hm _ _ _ E).
  - eapply I_trans; [exact Hm | eapply Hk; exact H].
  - inversion H; subst. exact Hm.
  - inversion H; subst. exact Hm.
Qed.

Lemma keeps_try_catch {A : Type} (m : M A) (handle : js_error -> M A) :
  keeps I m -> (forall e, keeps I (handle e)) -> keeps I (try_catch m handle).
Proof.
  intros Hm Hh w w' r H. unfold try_catch in H.
  destruct (m w) as [w1 [a | e | ]] eqn:E; specialize (Hm _ _ _ E).
  - inversion H; subst. exact Hm.
  - eapply I_trans; [exact Hm | eapply Hh; exact H].
  - inversion H; subst. exact Hm.
Qed.

Lemma keeps_while {S : Type} (cond : S -> bool) (body : S -> M S) :
  (forall x, keeps I (body x)) ->
  forall fuel x, keeps I (while_ fuel cond body x).
Proof.
  intros Hb fuel. induction fuel as [|fuel IH]; intros x w w' r H; simpl in H;
    destruct (cond x).
  - inversion H; subst. apply I_refl.
  - inversion H; subst. apply I_refl.
  - revert H. apply keeps_bind; [apply Hb | intro a; apply IH].
  - inversion H; subst. apply I_refl.
Qed.

Lemma keeps_while_await {S : Type} (cond : S -> bool) (body : S -> M S) (x : S) :
  (forall x, keeps I (body x)) -> keeps I (while_await cond body x).
Proof.
  intros Hb w w' r H. unfold while_await in H.
  revert H. apply keeps_while. exact Hb.
Qed.

Lemma keeps_asyncForEach {A : Type} (callback : A -> M unit) (array : list A) :
  (forall a, keeps I (callback a)) -> keeps I (asyncForEach array callback).
Proof.
  intro Hc. induction array as [|a array IH]; simpl.
  - apply keeps_ret.
  - apply keeps_bind; [apply Hc | intros _; exact IH].
Qed.

End Keeps.

Lemma requests_refl (url : string) (w : world) : requests url w w.
Proof.
  repeat split; [exists []; reflexivity |].
  exists []. rewrite app_nil_r. split; [reflexivity | constructor].
Qed.

Lemma requests_trans (url : string) (w1 w2 w3 : world) :
  requests url w1 w2 -> requests url w2 w3 -> requests url w1 w3.
Proof.
  intros [Ht [[u Hu] [n [Hn Hf]]]] [Ht' [[u' Hu'] [n' [Hn' Hf']]]].
  repeat split.
  - congruence.
  - exists (u ++ u'). rewrite Hu, Hu', app_assoc. reflexivity.
  - exists (n ++ n'). rewrite Hn', Hn, app_assoc. split; [reflexivity |].
    rewrite fetched_urls_app. apply Forall_app. split; assumption.
Qed.

Lemma requests_emit (url : string) (e : event) :
  fetched_urls [e] = [] -> keeps (requests url) (emit e).
Proof.
  intros He w w' r H. inversion H; subst; simpl.
  repeat split; [exists []; reflexivity |].
  exists [e]. split; [reflexivity | rewrite He; constructor].
Qed.

Lemma requests_fetch_json (url : string) (options : fetch_options) :
  keeps (requests url) (fetch_json url options).
Proof.
  intros w w' r H. unfold fetch_json in H.
  destruct (script w) as [|h rest] eqn:Hs.
  - inversion H; subst. apply requests_refl.
  - assert (Hw : w' = mkWorld (this w) rest (trace w ++ [Fetch url options]))
      by (destruct (h url options); inversion H; reflexivity).
    subst w'. simpl. repeat split.
    + exists [h]. rewrite Hs. reflexivity.
    + exists [Fetch url options]. split; [reflexivity | repeat constructor].
Qed.

Create HintDb requests.

Ltac keeps_requests :=
  repeat first
    [ solve [auto with requests nocore]
    | apply keeps_bind; [apply requests_trans | | intro]
    | apply keeps_try_catch; [apply requests_trans | | intro]
    | apply keeps_while_await; [apply requests_refl | apply requests_trans | intro]
    | apply keeps_ret; apply requests_refl
    | apply keeps_throw; apply requests_refl
    | apply keeps_gets; apply requests_refl
    | apply requests_emit; reflexivity
    | apply requests_fetch_json ].

Lemma requests_request_round (method url : string) (options : fetch_options)
  (maxRetries : Z) (vars : option body * Z) :
  keeps (requests url) (request_round method url options maxRetries vars).
Proof.
  destruct vars as [response retries]. unfold request_round, logger, debug, delay.
  keeps_requests.
  destruct (retries + 1 <? maxRetries); keeps_requests.
Qed.

Lemma requests_get_response (url : string) (response : option body) :
  keeps (requests url) (get_response response).
Proof. destruct response as [[| | r]|]; simpl; keeps_requests. Qed.

Lemma requests_get_planets (url : string) (response : option payload) :
  keeps (requests url) (get_planets response).
Proof. destruct response; simpl; keeps_requests. Qed.

#[local] Hint Resolve requests_request_round requests_get_response
  requests_get_planets : requests.

Lemma requests_RequestAPI (method : string) (params : option (list string))
  (maxRetries : Z) (additionalOptions : additional_options) :
  keeps (requests (build_url method params))
    (RequestAPI method params maxRetries additionalOptions).
Proof. unfold RequestAPI. keeps_requests. Qed.

#[local] Hint Resolve requests_RequestAPI : requests.

Lemma requests_ApiGetPlanets :
  keeps (requests (build_url "ITerritoryControlMinigameService/GetPlanets"
                     (Some [ "active_only=1"%string ])))
    ApiGetPlanets.
Proof. unfold ApiGetPlanets. keeps_requests. Qed.

Lemma requests_ApiGetPlanet (planetId : string) :
  keeps (requests (detail_url planetId)) (ApiGetPlanet planetId).
Proof.
  unfold ApiGetPlanet, detail_url, get_first_planet. keeps_requests.
  destruct a1; keeps_requests.
Qed.

#[local] Hint Resolve requests_ApiGetPlanets requests_ApiGetPlanet : requests.

Lemma requests_wait_zones (planetId : string) :
  keeps (requests (detail_url planetId)) (wait_zones planetId).
Proof. unfold wait_zones. keeps_requests. Qed.

(** ** The scan of a zone list *)

Lemma skip_excluded_b (zone : Zone) :
  nearly_captured zone || is_captured zone = excluded_b zone.
Proof.
  unfold nearly_captured, is_captured, excluded_b.
  rewrite orb_comm. f_equal.
  - destruct (captured zone) as [[|]|]; reflexivity.
  - destruct (capture_progress zone) as [p|]; [|reflexivity].
    destruct (js_gt p js_0_97) eqn:Hgt; [|apply andb_false_r].
    now rewrite (js_gt_0_97_truthy p Hgt).
Qed.

Lemma world_eta (w : world) : mkWorld (this w) (script w) (trace w ++ []) = w.
Proof. destruct w. simpl. now rewrite app_nil_r. Qed.

(** One zone: its effect on the counters, in terms of the specification's
    [excluded_b] and [bucket_of]. *)
Lemma scan_zone_run (zone : Zone) (c : counters) (w : world) :
  exists c' new,
    scan_zone c zone w = (mkWorld (this w) (script w) (trace w ++ new), Ok c')
    /\ fetched_urls new = []
    /\ (hasBossZone c = true -> hasBossZone c' = true)
    /\ forall b,
         count b c'
         = count b c
           + (if negb (excluded_b zone) && bucket_eqb (bucket_of zone) b then 1 else 0).
Proof.
  unfold scan_zone, bucket_of. rewrite skip_excluded_b.
  destruct (excluded_b zone).
  - exists c, []. rewrite world_eta. repeat split; auto. intro b; simpl; lia.
  - unfold bind, ret, logger, emit.
    destruct (strict_eq (type zone) 4);
      [| destruct (strict_eq (type zone) 3) ]; simpl;
      (destruct (strict_eq (difficulty zone) 3);
       [| destruct (strict_eq (difficulty zone) 2);
          [| destruct (strict_eq (difficulty zone) 1) ] ]);
      eexists;
      first [ exists []; rewrite world_eta; split; [reflexivity |]
            | eexists; split; [reflexivity |] ]; simpl;
      repeat split; auto; intros []; simpl; lia.
Qed.

Lemma tally_cons (zone : Zone) (zones : list Zone) (b : bucket) :
  tally (zone :: zones) b
  = (if negb (excluded_b zone) && bucket_eqb (bucket_of zone) b then 1 else 0)
    + tally zones b.
Proof.
  unfold tally. simpl.
  destruct (negb (excluded_b zone) && bucket_eqb (bucket_of zone) b); simpl List.length; lia.
Qed.

(** The whole list: each bucket count grows by the number of eligible zones
    of that bucket; no request is made; a boss flag that is set stays set. *)
Lemma forEach_zone_run (zones : list Zone) :
  forall (c : counters) (w : world),
    exists c' new,
      forEach_zone zones c w = (mkWorld (this w) (script w) (trace w ++ new), Ok c')
      /\ fetched_urls new = []
      /\ (hasBossZone c = true -> hasBossZone c' = true)
      /\ forall b, count b c' = count b c + tally zones b.
Proof.
  induction zones as [|zone zones IH]; intros c w.
  - exists c, []. simpl. rewrite world_eta. repeat split; auto.
    intro b. unfold tally. simpl. lia.
  - destruct (scan_zone_run zone c w) as [c1 [n1 [H1 [F1 [B1 C1]]]]].
    destruct (IH c1 (mkWorld (this w) (script w) (trace w ++ n1)))
      as [c2 [n2 [H2 [F2 [B2 C2]]]]].
    exists c2, (n1 ++ n2). simpl forEach_zone. unfold bind. rewrite H1, H2. simpl.
    rewrite app_assoc. repeat split.
    + rewrite fetched_urls_app, F1, F2. reflexivity.
    + auto.
    + intro b. rewrite C2, C1, tally_cons. lia.
Qed.

(** ** The scan of one planet and the pass *)

Lemma bind_ok {A B : Type} (m : M A) (k : A -> M B) (w w' : world) (a : A) :
  m w = (w', Ok a) -> bind m k w = k a w'.
Proof. intro H. unfold bind. now rewrite H. Qed.

Lemma bind_throw {A B : Type} (m : M A) (k : A -> M B) (w w' : world) (e : js_error) :
  m w = (w', Throw e) -> bind m k w = (w', Throw e).
Proof. intro H. unfold bind. now rewrite H. Qed.

Ltac run_bind tac := erewrite bind_ok by tac; cbv beta iota.

Lemma bind_pending {A B : Type} (m : M A) (k : A -> M B) (w w' : world) :
  m w = (w', Pending) -> bind m k w = (w', Pending).
Proof. intro H. unfold bind. now rewrite H. Qed.

(** Once the detail of a planet has arrived, the planet is selected: the
    callback logs the tally of its zones, sets [currentPlanetId] and throws,
    whatever the zones are.  ([hasBossZone] starts as [true].) *)
Lemma scan_planet_selects (planet detail : Planet) (w w2 : world)
  (l : list Zone) (st : PlanetState) :
  wait_zones (id planet) (fst (push_knownPlanets (id planet) w)) = (w2, Ok (Some detail)) ->
  zones detail = Some l ->
  state planet = Some st ->
  exists new,
    scan_planet planet w
    = (mkWorld (with_current (this w2) (id planet)) (script w2) (trace w2 ++ new),
       Throw (SalienScriptException None))
    /\ fetched_urls new = []
    /\ In (Log (LogPlanet (id planet) (tally l Hard) (tally l Medium) (tally l Easy)
                  (state_capture_progress st) (state_current_players st)
                  (state_name st))) new.
Proof.
  intros Hwait Hz Hst.
  destruct (forEach_zone_run l initial_counters w2) as [c [n [Hrun [Hf [Hb Hc]]]]].
  specialize (Hb eq_refl).
  pose proof (Hc Hard) as Hh. pose proof (Hc Medium) as Hm. pose proof (Hc Easy) as He.
  simpl in Hh, Hm, He.
  unfold scan_planet.
  run_bind ltac:(reflexivity).
  run_bind ltac:(exact Hwait).
  rewrite Hz.
  run_bind ltac:(reflexivity).
  run_bind ltac:(exact Hrun).
  rewrite Hst, Hb, Hh, Hm, He.
  run_bind ltac:(reflexivity).
  run_bind ltac:(reflexivity).
  destruct (unknownZones c =? 0).
  - run_bind ltac:(reflexivity).
    run_bind ltac:(reflexivity).
    unfold throw. simpl. eexists. rewrite <- !app_assoc.
    split; [reflexivity |]. rewrite !fetched_urls_app, Hf.
    split; [reflexivity |]. apply in_or_app; right; left; reflexivity.
  - run_bind ltac:(reflexivity).
    run_bind ltac:(reflexivity).
    unfold throw. simpl. eexists. rewrite <- !app_assoc.
    split; [reflexivity |]. rewrite !fetched_urls_app, Hf.
    split; [reflexivity |]. apply in_or_app; right; left; reflexivity.
Qed.

(** The pass, from the planets list to the selection of its first planet. *)
Lemma setupGame_selects (w w1 w2 : world) (planet detail : Planet)
  (others : list Planet) (l : list Zone) (st : PlanetState) :
  ApiGetPlanets w = (w1, Ok (Some (planet :: others))) ->
  wait_zones (id planet) (fst (push_knownPlanets (id planet) w1)) = (w2, Ok (Some detail)) ->
  zones detail = Some l ->
  state planet = Some st ->
  exists new,
    setupGame w
    = (mkWorld (with_current (this w2) (id planet)) (script w2) (trace w2 ++ new), Ok tt)
    /\ fetched_urls new = []
    /\ In (Log (LogPlanet (id planet) (tally l Hard) (tally l Medium) (tally l Easy)
                  (state_capture_progress st) (state_current_players st)
                  (state_name st))) new.
Proof.
  intros Hp Hwait Hz Hst.
  destruct (scan_planet_selects planet detail w1 w2 l st Hwait Hz Hst)
    as [n [Hscan [Hf Hin]]].
  unfold setupGame.
  run_bind ltac:(exact Hp).
  assert (Hloop : asyncForEach (planet :: others) scan_planet w1
                  = (mkWorld (with_current (this w2) (id planet)) (script w2)
                       (trace w2 ++ n), Throw (SalienScriptException None)))
    by (simpl; erewrite bind_throw by exact Hscan; reflexivity).
  run_bind ltac:(unfold try_catch; rewrite Hloop; reflexivity).
  run_bind ltac:(reflexivity).
  unfold logger, emit. simpl.
  eexists. rewrite <- !app_assoc. split; [reflexivity |].
  rewrite !fetched_urls_app, Hf. split; [reflexivity |].
  apply in_or_app. left. exact Hin.
Qed.

(** C9. The boss flag of a planet starts as [true] and is never cleared, so
    whenever the planets list is not empty and the detail of its first planet
    arrives (a planet object with its zone list, the list entry carrying its
    state), the pass sets [currentPlanetId] to the first planet's id and
    ends normally, making no further request, whatever the zones are: no
    zone of type 4 is needed. *)
Theorem setupGame_always_selects_first (w w1 w2 : world) (planet detail : Planet)
  (others : list Planet) (l : list Zone) (st : PlanetState) :
  ApiGetPlanets w = (w1, Ok (Some (planet :: others))) ->
  wait_zones (id planet) (fst (push_knownPlanets (id planet) w1)) = (w2, Ok (Some detail)) ->
  zones detail = Some l ->
  state planet = Some st ->
  exists w',
    setupGame w = (w', Ok tt)
    /\ currentPlanetId (this w') = Some (id planet)
    /\ script w' = script w2
    /\ fetched_urls (trace w') = fetched_urls (trace w2).
Proof.
  intros Hp Hwait Hz Hst.
  destruct (setupGame_selects w w1 w2 planet detail others l st Hp Hwait Hz Hst)
    as [n [Hrun [Hf _]]].
  eexists. split; [exact Hrun |]. simpl. repeat split.
  rewrite fetched_urls_app, Hf. apply app_nil_r.
Qed.

Lemma setupGame_always_selects_first_witness :
  existsb eligible_boss [ normal_zone; nearly_captured_zone ] = false
  /\ exists w',
       setupGame (fresh [ reply (Some [ planet_A; planet_B ]); reply (Some [ detail_A ]) ])
       = (w', Ok tt)
       /\ currentPlanetId (this w') = Some "A"%string
       /\ script w' = []
       /\ fetched_urls (trace w')
          = [ build_url "ITerritoryControlMinigameService/GetPlanets"
                (Some [ "active_only=1"%string ]);
              detail_url "A" ].
Proof.
  split; [reflexivity |].
  exact (setupGame_always_selects_first
           (fresh [ reply (Some [ planet_A; planet_B ]); reply (Some [ detail_A ]) ])
           _ _ planet_A detail_A [ planet_B ] _ _
           eq_refl eq_refl eq_refl eq_refl).
Defined.

(** C1 (the code at an input on which it departs from the claim).  Against
    the snapshot in which planet A has no boss zone while B and C have one,
    the specification selects B; the pass selects A, the first planet, and
    ends normally.  Only the planets list and the detail of A are requested. *)
Theorem setupGame_selects_planet_without_boss :
  spec_selection [ detail_A; detail_B; detail_C ] = Some "B"%string
  /\ snd (setupGame (fresh (repeat snapshot_ABC 4))) = Ok tt
  /\ currentPlanetId (this (fst (setupGame (fresh (repeat snapshot_ABC 4)))))
     = Some "A"%string
  /\ fetched_urls (trace (fst (setupGame (fresh (repeat snapshot_ABC 4)))))
     = [ build_url "ITerritoryControlMinigameService/GetPlanets"
           (Some [ "active_only=1"%string ]);
         detail_url "A" ].
Proof. vm_compute. repeat split. Qed.

(** C5 (counterexample). The planets list is empty: the guard [!planets]
    lets it through (an empty array is truthy), the pass throws nothing,
    requests no detail and chooses no planet. *)
Lemma setupGame_empty_planets_list :
  snd (ApiGetPlanets (fresh [ reply (Some []) ])) = Ok (Some [])
  /\ ~ (exists e, snd (setupGame (fresh [ reply (Some []) ])) = Throw e)
  /\ snd (setupGame (fresh [ reply (Some []) ])) = Ok tt
  /\ currentPlanetId (this (fst (setupGame (fresh [ reply (Some []) ])))) = None.
Proof.
  repeat split; try reflexivity.
  intros [e He]. vm_compute in He. discriminate.
Qed.

(** C5 (amended). When the planets list obtained from [GetPlanets] is absent
    (the response has no [planets]), the pass fails with the
    [SalienScriptException] "Didn't find any planets." in the very world that
    the [GetPlanets] call left: every request made so far went to the
    [GetPlanets] URL, none to a planet detail. *)
Theorem setupGame_planets_absent (w w1 : world) :
  ApiGetPlanets w = (w1, Ok None) ->
  setupGame w
  = (w1, Throw (SalienScriptException (Some "Didn't find any planets."%string)))
  /\ requests (build_url "ITerritoryControlMinigameService/GetPlanets"
                 (Some [ "active_only=1"%string ])) w w1.
Proof.
  intro H. split.
  - unfold setupGame. run_bind ltac:(exact H). reflexivity.
  - exact (requests_ApiGetPlanets w w1 _ H).
Qed.

Lemma setupGame_planets_absent_witness :
  exists w1,
    ApiGetPlanets (fresh [ reply None; reply (Some [ detail_A ]) ]) = (w1, Ok None)
    /\ setupGame (fresh [ reply None; reply (Some [ detail_A ]) ])
       = (w1, Throw (SalienScriptException (Some "Didn't find any planets."%string)))
    /\ script w1 = [ reply (Some [ detail_A ]) ].
Proof.
  eexists. split; [reflexivity |]. split; [| reflexivity].
  exact (proj1 (setupGame_planets_absent
                  (fresh [ reply None; reply (Some [ detail_A ]) ]) _ eq_refl)).
Defined.

(** ** The wait for the detail of a planet *)

(** A first attempt that decodes a truthy body ends [RequestAPI]. *)
Lemma RequestAPI_first_try (method : string) (params : option (list string))
  (maxRetries : Z) (additionalOptions : additional_options) (w : world)
  (h : handler) (tail : list handler) (r : option payload) :
  script w = h :: tail ->
  h (build_url method params) (make_options additionalOptions) = Body (JsonObject r) ->
  1 <= maxRetries ->
  RequestAPI method params maxRetries additionalOptions w
  = (mkWorld (this w) tail
       (trace w ++ [ Log (LogSending method);
                     Fetch (build_url method params) (make_options additionalOptions) ]),
     Ok r).
Proof.
  intros Hs Hh Hmax. unfold RequestAPI.
  assert (Hloop :
      while_await (request_again maxRetries)
        (request_round method (build_url method params)
           (make_options additionalOptions) maxRetries) (None, 0) w
      = (mkWorld (this w) tail
           (trace w ++ [ Log (LogSending method);
                         Fetch (build_url method params)
                           (make_options additionalOptions) ]),
         Ok (Some (JsonObject r), 0))).
  { unfold while_await.
    rewrite while_enter by (unfold request_again; simpl; apply Z.ltb_lt; lia).
    rewrite (request_round_body _ _ _ _ w h tail (JsonObject r) None 0 Hs Hh).
    rewrite while_exit by reflexivity. reflexivity. }
  run_bind ltac:(exact Hloop). reflexivity.
Qed.

Lemma ApiGetPlanet_reply (planetId : string) (w : world) (h : handler)
  (tail : list handler) (l : list Planet) :
  script w = h :: tail ->
  answers planetId l h ->
  1 <= maxRetries (this w) ->
  ApiGetPlanet planetId w
  = (mkWorld (this w) tail
       (trace w ++ [ Log (LogSending "ITerritoryControlMinigameService/GetPlanet");
                     Fetch (detail_url planetId) (make_options no_additional) ]),
     Ok (hd_error l)).
Proof.
  intros Hs Hh Hmax. unfold ApiGetPlanet.
  run_bind ltac:(reflexivity).
  run_bind ltac:(apply (RequestAPI_first_try _ _ _ _ w h tail _ Hs Hh Hmax)).
  reflexivity.
Qed.

(** While the replies carry an empty [planets] array the loop asks again. *)
Lemma wait_zones_empties (planetId : string) (empties : list handler) :
  forall (w : world) (tail : list handler),
    Forall (answers planetId []) empties ->
    script w = empties ++ tail ->
    1 <= maxRetries (this w) ->
    exists new,
      fetched_urls new = repeat (detail_url planetId) (List.length empties)
      /\ forall fuel,
           while_ (List.length empties + fuel)
             no_zones
             (fun _ => ApiGetPlanet planetId) None w
           = while_ fuel
               no_zones
               (fun _ => ApiGetPlanet planetId) None
               (mkWorld (this w) tail (trace w ++ new)).
Proof.
  induction empties as [|h empties IH]; intros w tail Hall Hs Hmax.
  - exists []. split; [reflexivity |]. intro fuel. simpl.
    rewrite app_nil_r. destruct w; simpl in *; now subst.
  - inversion Hall as [|h' l' Hh Hall']; subst.
    set (round := [ Log (LogSending "ITerritoryControlMinigameService/GetPlanet");
                    Fetch (detail_url planetId) (make_options no_additional) ]).
    destruct (IH (mkWorld (this w) (empties ++ tail) (trace w ++ round)) tail
                Hall' eq_refl Hmax) as [new [Hu Hrun]].
    exists (round ++ new). split.
    + rewrite fetched_urls_app, Hu. reflexivity.
    + intro fuel. simpl List.length. simpl Nat.add.
      rewrite while_enter by reflexivity.
      rewrite (ApiGetPlanet_reply planetId w h (empties ++ tail) [] Hs Hh Hmax).
      fold round. simpl hd_error. rewrite Hrun. simpl. rewrite <- app_assoc.
      reflexivity.
Qed.

(** The loop ends at the first reply whose [planets] array has an element. *)
Lemma wait_zones_arrives (planetId : string) (w : world) (empties : list handler)
  (good : handler) (rest : list handler) (detail : Planet) (more : list Planet) :
  Forall (answers planetId []) empties ->
  answers planetId (detail :: more) good ->
  script w = empties ++ good :: rest ->
  1 <= maxRetries (this w) ->
  exists new,
    wait_zones planetId w = (mkWorld (this w) rest (trace w ++ new), Ok (Some detail))
    /\ fetched_urls new = repeat (detail_url planetId) (Datatypes.S (List.length empties)).
Proof.
  intros Hall Hgood Hs Hmax.
  destruct (wait_zones_empties planetId empties w (good :: rest) Hall Hs Hmax)
    as [new [Hu Hrun]].
  exists (new ++ [ Log (LogSending "ITerritoryControlMinigameService/GetPlanet");
                   Fetch (detail_url planetId) (make_options no_additional) ]).
  split.
  - unfold wait_zones, while_await.
    replace (Datatypes.S (List.length (script w)))
      with (List.length empties + Datatypes.S (Datatypes.S (List.length rest)))%nat
      by (rewrite Hs, length_app; simpl; lia).
    rewrite Hrun.
    rewrite while_enter by reflexivity.
    rewrite (ApiGetPlanet_reply planetId
               (mkWorld (this w) (good :: rest) (trace w ++ new))
               good rest (detail :: more) eq_refl Hgood Hmax).
    rewrite while_exit by reflexivity. simpl. rewrite <- app_assoc. reflexivity.
  - rewrite fetched_urls_app, Hu. simpl. rewrite <- repeat_cons. reflexivity.
Qed.

(** C6 (counterexample). The detail arrives with an empty zone list, a later
    reply would carry zones: the loop does not ask again.  The planet is
    tallied with no zone and selected; the later reply stays in the script. *)
Lemma setupGame_accepts_empty_zone_list :
  let w := fresh [ reply (Some [ planet_A ]);
                   reply (Some [ mkPlanet "A" (state planet_A) (Some []) ]);
                   reply (Some [ detail_A ]) ] in
  snd (setupGame w) = Ok tt
  /\ script (fst (setupGame w)) = [ reply (Some [ detail_A ]) ]
  /\ fetched_urls (trace (fst (setupGame w)))
     = [ build_url "ITerritoryControlMinigameService/GetPlanets"
           (Some [ "active_only=1"%string ]);
         detail_url "A" ]
  /\ In (Log (LogPlanet "A" 0 0 0 js_0_97 10 "#TerritoryControl_Planet_A"))
       (trace (fst (setupGame w)))
  /\ currentPlanetId (this (fst (setupGame w))) = Some "A"%string.
Proof.
  vm_compute. repeat split. do 4 right. left. reflexivity.
Qed.

(** C6 (amended). The detail request of a scanned planet is repeated while
    the reply carries an empty [planets] array, and stops at the first reply
    that carries a planet object, whatever the zone list of that object
    (empty or not).  The zones of that first planet object are then
    classified and counted: the pass logs their tally by bucket, and makes no
    further request. *)
Theorem setupGame_waits_for_planet_object (w w1 : world) (planet detail : Planet)
  (others more : list Planet) (st : PlanetState) (l : list Zone)
  (empties : list handler) (good : handler) (rest : list handler) :
  ApiGetPlanets w = (w1, Ok (Some (planet :: others))) ->
  state planet = Some st ->
  1 <= maxRetries (this w1) ->
  script w1 = empties ++ good :: rest ->
  Forall (answers (id planet) []) empties ->
  answers (id planet) (detail :: more) good ->
  zones detail = Some l ->
  exists w' new,
    setupGame w = (w', Ok tt)
    /\ script w' = rest
    /\ trace w' = trace w1 ++ new
    /\ fetched_urls new = repeat (detail_url (id planet)) (Datatypes.S (List.length empties))
    /\ In (Log (LogPlanet (id planet) (tally l Hard) (tally l Medium) (tally l Easy)
                  (state_capture_progress st) (state_current_players st)
                  (state_name st))) new
    /\ currentPlanetId (this w') = Some (id planet).
Proof.
  intros Hp Hst Hmax Hs Hall Hgood Hz.
  destruct (wait_zones_arrives (id planet) (fst (push_knownPlanets (id planet) w1))
              empties good rest detail more Hall Hgood Hs Hmax) as [n1 [Hwait Hu]].
  destruct (setupGame_selects w w1 _ planet detail others l st Hp Hwait Hz Hst)
    as [n2 [Hrun [Hf Hin]]].
  eexists. exists (n1 ++ n2). split; [exact Hrun |]. simpl.
  rewrite fetched_urls_app, Hf, Hu, app_nil_r, app_assoc.
  repeat split. apply in_or_app. right. exact Hin.
Qed.

Lemma setupGame_waits_for_planet_object_witness :
  exists w' new,
    setupGame (fresh [ reply (Some [ planet_B; planet_C ]); reply (Some []);
                       reply (Some [ detail_B ]); reply (Some [ detail_C ]) ])
    = (w', Ok tt)
    /\ script w' = [ reply (Some [ detail_C ]) ]
    /\ trace w'
       = [ Log (LogSending "ITerritoryControlMinigameService/GetPlanets");
           Fetch (build_url "ITerritoryControlMinigameService/GetPlanets"
                    (Some [ "active_only=1"%string ])) (make_options no_additional) ]
         ++ new
    /\ fetched_urls new = [ detail_url "B"; detail_url "B" ]
    /\ In (Log (LogPlanet "B" 1 1 0 js_0_97 20 "#TerritoryControl_Planet_B")) new
    /\ currentPlanetId (this w') = Some "B"%string.
Proof.
  exact (setupGame_waits_for_planet_object
           (fresh [ reply (Some [ planet_B; planet_C ]); reply (Some []);
                    reply (Some [ detail_B ]); reply (Some [ detail_C ]) ])
           _ planet_B detail_B [ planet_C ] [] _ [ normal_zone; boss_zone ]
           [ reply (Some []) ] (reply (Some [ detail_B ])) [ reply (Some [ detail_C ]) ]
           eq_refl eq_refl ltac:(simpl; lia) eq_refl
           (Forall_cons _ eq_refl (Forall_nil _)) eq_refl eq_refl).
Defined.

(** ** KnownPlanets *)

Lemma keeps_weaken {A : Type} (I J : world -> world -> Prop) (m : M A) :
  (forall w w', I w w' -> J w w') -> keeps I m -> keeps J m.
Proof. intros HIJ Hm w w' r H. apply HIJ. eapply Hm. exact H. Qed.

Lemma scans_refl (url : string) (w : world) : scans url w w.
Proof.
  split; [reflexivity |]. exists []. rewrite app_nil_r. split; [reflexivity | constructor].
Qed.

Lemma scans_trans (url : string) (w1 w2 w3 : world) :
  scans url w1 w2 -> scans url w2 w3 -> scans url w1 w3.
Proof.
  intros [Hk [n [Hn Hf]]] [Hk' [n' [Hn' Hf']]]. split; [congruence |].
  exists (n ++ n'). rewrite Hn', Hn, app_assoc. split; [reflexivity |].
  rewrite fetched_urls_app. apply Forall_app. split; assumption.
Qed.

Lemma requests_scans (url : string) (w w' : world) : requests url w w' -> scans url w w'.
Proof. intros [Ht [_ Hn]]. split; [now rewrite Ht | exact Hn]. Qed.

Lemma scans_emit (url : string) (e : event) :
  fetched_urls [e] = [] -> keeps (scans url) (emit e).
Proof.
  intros He w w' r H. inversion H; subst; simpl.
  split; [reflexivity |]. exists [e]. split; [reflexivity | rewrite He; constructor].
Qed.

Lemma scans_forEach_zone (url : string) (l : list Zone) (c : counters) :
  keeps (scans url) (forEach_zone l c).
Proof.
  intros w w' r H.
  destruct (forEach_zone_run l c w) as [c' [n [Hrun [Hf _]]]].
  rewrite Hrun in H. inversion H; subst; simpl.
  split; [reflexivity |]. exists n. split; [reflexivity | rewrite Hf; constructor].
Qed.

Lemma scans_set_currentPlanetId (url planetId : string) :
  keeps (scans url) (set_currentPlanetId planetId).
Proof.
  intros w w' r H. inversion H; subst; simpl.
  split; [reflexivity |]. exists []. rewrite app_nil_r. split; [reflexivity | constructor].
Qed.

Ltac keeps_scans :=
  repeat first
    [ apply keeps_bind; [apply scans_trans | | intro]
    | apply keeps_ret; apply scans_refl
    | apply keeps_throw; apply scans_refl
    | apply keeps_gets; apply scans_refl
    | apply scans_emit; reflexivity
    | apply scans_forEach_zone
    | apply scans_set_currentPlanetId ].

Lemma keeps_seq {A B : Type} (I J K : world -> world -> Prop) (m : M A) (k : A -> M B) :
  keeps I m ->
  (forall a, keeps J (k a)) ->
  (forall w1 w2, I w1 w2 -> K w1 w2) ->
  (forall w1 w2 w3, I w1 w2 -> J w2 w3 -> K w1 w3) ->
  keeps K (bind m k).
Proof.
  intros Hm Hk HIK HIJK w w' r H. unfold bind in H.
  destruct (m w) as [w1 [a | e | ]] eqn:E; specialize (Hm _ _ _ E).
  - eapply HIJK; [exact Hm | eapply Hk; exact H].
  - inversion H; subst. apply HIK, Hm.
  - inversion H; subst. apply HIK, Hm.
Qed.

(** The callback records its planet first; all that follows requests the
    detail of that planet only. *)
Lemma scan_planet_known (planet : Planet) :
  keeps (fun w w' =>
           knownPlanets (this w') = knownPlanets (this w) ++ [id planet]
           /\ exists new,
                trace w' = trace w ++ new
                /\ Forall (eq (detail_url (id planet))) (fetched_urls new))
    (scan_planet planet).
Proof.
  unfold scan_planet.
  apply keeps_seq
    with (I := fun w w' => knownPlanets (this w') = knownPlanets (this w) ++ [id planet]
                           /\ trace w' = trace w)
         (J := scans (detail_url (id planet))).
  - intros w w' r H. inversion H; subst. simpl. split; reflexivity.
  - intros _. unfold logger. keeps_scans.
    + eapply keeps_weaken; [apply requests_scans | apply requests_wait_zones].
    + destruct a as [detail|]; [destruct (zones detail) |]; keeps_scans.
    + destruct (state planet); keeps_scans.
    + destruct (unknownZones a1 =? 0); keeps_scans.
    + destruct (hasBossZone a1); keeps_scans.
  - intros w1 w2 [Hk Ht]. split; [exact Hk |].
    exists []. rewrite app_nil_r. split; [exact Ht | constructor].
  - intros w1 w2 w3 [Hk Ht] [Hk' [n [Hn Hf]]]. split; [congruence |].
    exists n. split; [congruence | exact Hf].
Qed.

Lemma asyncForEach_known (planets : list Planet) :
  keeps (scan_record planets) (asyncForEach planets scan_planet).
Proof.
  induction planets as [|planet planets IH].
  - intros w w' r H. inversion H; subst.
    exists [], [], []. rewrite !app_nil_r. repeat split. constructor.
  - simpl asyncForEach.
    eapply keeps_seq; [apply scan_planet_known | intros _; exact IH | |].
    + intros w1 w2 [Hk [n [Hn Hf]]].
      exists [planet], planets, n. repeat split; try assumption.
      eapply Forall_impl; [| exact Hf]. intros url Hu. left. exact Hu.
    + intros w1 w2 w3 [Hk [n [Hn Hf]]] [scanned [unscanned [n' [Hp [Hk' [Hn' Hf']]]]]].
      exists (planet :: scanned), unscanned, (n ++ n'). repeat split.
      * simpl. now rewrite Hp.
      * rewrite Hk', Hk. simpl. rewrite <- app_assoc. reflexivity.
      * rewrite Hn', Hn, app_assoc. reflexivity.
      * rewrite fetched_urls_app. apply Forall_app. split.
        -- eapply Forall_impl; [| exact Hf]. intros url Hu. left. exact Hu.
        -- eapply Forall_impl; [| exact Hf']. intros url Hu. right. exact Hu.
Qed.

(** After the scan the pass only writes log lines. *)
Lemma setupGame_after_scan (w w1 w' : world) (planets : list Planet) (r : result unit) :
  ApiGetPlanets w = (w1, Ok (Some planets)) ->
  setupGame w = (w', r) ->
  exists wl rl logs,
    asyncForEach planets scan_planet w1 = (wl, rl)
    /\ this w' = this wl
    /\ script w' = script wl
    /\ trace w' = trace wl ++ logs
    /\ fetched_urls logs = [].
Proof.
  intros Hp H. unfold setupGame in H.
  erewrite bind_ok in H by exact Hp. cbv beta iota in H.
  unfold bind, try_catch, logger, debug, emit, gets, throw in H.
  destruct (asyncForEach planets scan_planet w1) as [wl [[] | e | ]] eqn:E.
  - inversion H; subst. do 3 eexists. split; [reflexivity |]. simpl.
    repeat split.
  - destruct (String.eqb (name e) "SalienScriptException");
      inversion H; subst; do 3 eexists; (split; [reflexivity |]); simpl;
      rewrite <- ?app_assoc; repeat split.
  - inversion H; subst. exists w', Pending, []. rewrite app_nil_r. repeat split.
Qed.

(** Against the snapshot of planets A, B and C a pass on a fresh instance
    records planet A, the only planet it scans. *)
Example knownPlanets_after_pass :
  knownPlanets (this (fst (setupGame (fresh (repeat snapshot_ABC 4))))) = [ "A"%string ].
Proof. reflexivity. Qed.

(** ** Two passes against one snapshot *)

Ltac splits := repeat match goal with |- _ /\ _ => split end.

Lemma same_settings_refl (a : SalienScript) : same_settings a a.
Proof. repeat split. Qed.

Lemma same_settings_step (a a' b b' : SalienScript) :
  same_settings a b -> same_settings a a' -> same_settings b b' -> same_settings a' b'.
Proof. unfold same_settings. intuition congruence. Qed.

Lemma same_settings_trans (a b c : SalienScript) :
  same_settings a b -> same_settings b c -> same_settings a c.
Proof. unfold same_settings. intuition congruence. Qed.

Lemma same_choice_trans (a a1 a2 b b1 b2 : SalienScript) :
  same_choice a a1 b b1 -> same_choice a1 a2 b1 b2 -> same_choice a a2 b b2.
Proof. unfold same_choice. intuition congruence. Qed.

Lemma same_choice_refl (a b : SalienScript) : same_choice a a b b.
Proof. left. split; reflexivity. Qed.

Section Snapshot.

(** The unchanged snapshot: every reply of the script is [h], a function of
    the URL and the options. *)
Variable h : handler.

Lemma agree_quiet {A : Type} (ma mb : M A) (r : result A) :
  (forall w, exists tr, ma w = (mkWorld (this w) (script w) tr, r)) ->
  (forall w, exists tr, mb w = (mkWorld (this w) (script w) tr, r)) ->
  agree h ma mb.
Proof.
  intros Ha Hb wa wb wa' wb' ra rb Sa Sb St Ea Eb _ _.
  destruct (Ha wa) as [ta Ha']. destruct (Hb wb) as [tb Hb'].
  rewrite Ha' in Ea. rewrite Hb' in Eb. inversion Ea; inversion Eb; subst.
  unfold stable. simpl.
  splits; auto using same_settings_refl, same_choice_refl.
Qed.

Lemma agree_ret {A : Type} (a : A) : agree h (ret a) (ret a).
Proof. apply agree_quiet with (r := Ok a); intro w; exists (trace w); now destruct w. Qed.

Lemma agree_throw {A : Type} (e : js_error) : agree h (@throw A e) (throw e).
Proof. apply agree_quiet with (r := Throw e); intro w; exists (trace w); now destruct w. Qed.

Lemma agree_emit (e e' : event) : agree h (emit e) (emit e').
Proof. apply agree_quiet with (r := Ok tt); intro w; eexists; reflexivity. Qed.

Lemma agree_gets {A : Type} (f : SalienScript -> A) :
  (forall a b, same_settings a b -> f a = f b) -> agree h (gets f) (gets f).
Proof.
  intros Hf wa wb wa' wb' ra rb Sa Sb St Ea Eb _ _.
  inversion Ea; inversion Eb; subst. unfold stable.
  rewrite (Hf _ _ St).
  splits; auto using same_settings_refl, same_choice_refl.
Qed.

Lemma agree_bind {A B : Type} (ma mb : M A) (ka kb : A -> M B) :
  agree h ma mb -> (forall x, agree h (ka x) (kb x)) -> agree h (bind ma ka) (bind mb kb).
Proof.
  intros Hm Hk wa wb wa' wb' ra rb Sa Sb St Ea Eb Na Nb.
  unfold bind in Ea, Eb.
  destruct (ma wa) as [wa1 ra1] eqn:Ma. destruct (mb wb) as [wb1 rb1] eqn:Mb.
  assert (Na1 : ra1 <> Pending)
    by (intro; subst ra1; inversion Ea; subst; now apply Na).
  assert (Nb1 : rb1 <> Pending)
    by (intro; subst rb1; inversion Eb; subst; now apply Nb).
  destruct (Hm _ _ _ _ _ _ Sa Sb St Ma Mb Na1 Nb1)
    as [Heq [[Sa1 Ta1] [[Sb1 Tb1] C1]]].
  subst rb1. destruct ra1 as [x | e | ]; [| | congruence].
  - destruct (Hk x _ _ _ _ _ _ Sa1 Sb1 (same_settings_step _ _ _ _ St Ta1 Tb1)
                Ea Eb Na Nb) as [Heq [[Sa2 Ta2] [[Sb2 Tb2] C2]]].
    unfold stable. splits; eauto using same_settings_trans, same_choice_trans.
  - inversion Ea; inversion Eb; subst. unfold stable. splits; auto.
Qed.

Lemma agree_try_catch {A : Type} (ma mb : M A) (ha hb : js_error -> M A) :
  agree h ma mb -> (forall e, agree h (ha e) (hb e)) ->
  agree h (try_catch ma ha) (try_catch mb hb).
Proof.
  intros Hm Hh wa wb wa' wb' ra rb Sa Sb St Ea Eb Na Nb.
  unfold try_catch in Ea, Eb.
  destruct (ma wa) as [wa1 ra1] eqn:Ma. destruct (mb wb) as [wb1 rb1] eqn:Mb.
  assert (Na1 : ra1 <> Pending)
    by (intro; subst ra1; inversion Ea; subst; now apply Na).
  assert (Nb1 : rb1 <> Pending)
    by (intro; subst rb1; inversion Eb; subst; now apply Nb).
  destruct (Hm _ _ _ _ _ _ Sa Sb St Ma Mb Na1 Nb1)
    as [Heq [[Sa1 Ta1] [[Sb1 Tb1] C1]]].
  subst rb1. destruct ra1 as [x | e | ]; [| | congruence].
  - inversion Ea; inversion Eb; subst. unfold stable. splits; auto.
  - destruct (Hh e _ _ _ _ _ _ Sa1 Sb1 (same_settings_step _ _ _ _ St Ta1 Tb1)
                Ea Eb Na Nb) as [Heq [[Sa2 Ta2] [[Sb2 Tb2] C2]]].
    unfold stable. splits; eauto using same_settings_trans, same_choice_trans.
Qed.

Lemma agree_while {S : Type} (cond : S -> bool) (body : S -> M S) :
  (forall x, agree h (body x) (body x)) ->
  forall fa fb x, agree h (while_ fa cond body x) (while_ fb cond body x).
Proof.
  intros Hb fa. induction fa as [|fa IH]; intros fb x; destruct fb as [|fb]; simpl;
    destruct (cond x) eqn:C; try apply agree_ret;
    try (intros wa wb wa' wb' ra rb _ _ _ Ea Eb Na Nb;
         first [ inversion Ea; subst; now elim Na
               | inversion Eb; subst; now elim Nb ]).
  apply agree_bind; [apply Hb | intro y; apply IH].
Qed.

Lemma agree_while_await {S : Type} (cond : S -> bool) (body : S -> M S) (x : S) :
  (forall x, agree h (body x) (body x)) ->
  agree h (while_await cond body x) (while_await cond body x).
Proof.
  intros Hb wa wb wa' wb' ra rb Sa Sb St Ea Eb.
  unfold while_await in Ea, Eb. revert Ea Eb.
  apply agree_while; assumption.
Qed.

Lemma agree_fetch_json (url : string) (options : fetch_options) :
  agree h (fetch_json url options) (fetch_json url options).
Proof.
  intros wa wb wa' wb' ra rb [na Sa] [nb Sb] St Ea Eb Na Nb.
  unfold fetch_json in Ea, Eb. rewrite Sa in Ea. rewrite Sb in Eb.
  destruct na as [|na]; [inversion Ea; subst; now elim Na |].
  destruct nb as [|nb]; [inversion Eb; subst; now elim Nb |].
  simpl in Ea, Eb. unfold stable, on_snapshot.
  destruct (h url options); inversion Ea; inversion Eb; subst; simpl;
    splits; eauto using same_settings_refl, same_choice_refl.
Qed.

Lemma agree_push_knownPlanets (planetId : string) :
  agree h (push_knownPlanets planetId) (push_knownPlanets planetId).
Proof.
  intros wa wb wa' wb' ra rb Sa Sb St Ea Eb _ _.
  inversion Ea; inversion Eb; subst. unfold stable, on_snapshot. simpl.
  splits; auto; try (repeat split; fail); left; split; reflexivity.
Qed.

Lemma agree_set_currentPlanetId (planetId : string) :
  agree h (set_currentPlanetId planetId) (set_currentPlanetId planetId).
Proof.
  intros wa wb wa' wb' ra rb Sa Sb St Ea Eb _ _.
  inversion Ea; inversion Eb; subst. unfold stable, on_snapshot. simpl.
  splits; auto; try (repeat split; fail). right. reflexivity.
Qed.

Create HintDb agree.

Ltac agree_steps :=
  repeat first
    [ solve [auto with agree nocore]
    | apply agree_bind; [| intro]
    | apply agree_try_catch; [| intro]
    | apply agree_while_await; intro
    | apply agree_ret
    | apply agree_throw
    | apply agree_emit
    | apply agree_fetch_json
    | apply agree_push_knownPlanets
    | apply agree_set_currentPlanetId
    | apply agree_gets; intros ? ? [? [? ?]]; assumption ].

Lemma agree_request_round (method url : string) (options : fetch_options)
  (maxRetries : Z) (vars : option body * Z) :
  agree h (request_round method url options maxRetries vars)
    (request_round method url options maxRetries vars).
Proof.
  destruct vars as [response retries]. unfold request_round, logger, debug, delay.
  agree_steps.
  destruct (retries + 1 <? maxRetries); agree_steps.
Qed.

Lemma agree_get_response (response : option body) :
  agree h (get_response response) (get_response response).
Proof. destruct response as [[| | r]|]; simpl; agree_steps. Qed.

Lemma agree_get_planets (response : option payload) :
  agree h (get_planets response) (get_planets response).
Proof. destruct response; simpl; agree_steps. Qed.

#[local] Hint Resolve agree_request_round agree_get_response agree_get_planets : agree.

Lemma agree_RequestAPI (method : string) (params : option (list string))
  (maxRetries : Z) (additionalOptions : additional_options) :
  agree h (RequestAPI method params maxRetries additionalOptions)
    (RequestAPI method params maxRetries additionalOptions).
Proof. unfold RequestAPI. agree_steps. Qed.

#[local] Hint Resolve agree_RequestAPI : agree.

Lemma agree_ApiGetPlanets : agree h ApiGetPlanets ApiGetPlanets.
Proof. unfold ApiGetPlanets. agree_steps. Qed.

Lemma agree_ApiGetPlanet (planetId : string) :
  agree h (ApiGetPlanet planetId) (ApiGetPlanet planetId).
Proof.
  unfold ApiGetPlanet, get_first_planet. agree_steps.
  destruct x1; agree_steps.
Qed.

#[local] Hint Resolve agree_ApiGetPlanets agree_ApiGetPlanet : agree.

Lemma agree_wait_zones (planetId : string) :
  agree h (wait_zones planetId) (wait_zones planetId).
Proof. unfold wait_zones. agree_steps. Qed.

Lemma agree_scan_zone (c : counters) (zone : Zone) :
  agree h (scan_zone c zone) (scan_zone c zone).
Proof.
  unfold scan_zone, logger.
  destruct (nearly_captured zone || is_captured zone); agree_steps.
  destruct (strict_eq (type zone) 4); agree_steps.
  destruct (negb (strict_eq (type zone) 3)); agree_steps.
Qed.

#[local] Hint Resolve agree_wait_zones agree_scan_zone : agree.

Lemma agree_forEach_zone (l : list Zone) :
  forall c, agree h (forEach_zone l c) (forEach_zone l c).
Proof. induction l as [|zone l IH]; intro c; simpl; agree_steps. Qed.

#[local] Hint Resolve agree_forEach_zone : agree.

Lemma agree_scan_planet (planet : Planet) :
  agree h (scan_planet planet) (scan_planet planet).
Proof.
  unfold scan_planet, logger. agree_steps.
  - destruct x0 as [detail|]; [destruct (zones detail) |]; agree_steps.
  - destruct (state planet); agree_steps.
  - destruct (unknownZones x2 =? 0); agree_steps.
  - destruct (hasBossZone x2); agree_steps.
Qed.

#[local] Hint Resolve agree_scan_planet : agree.

Lemma agree_asyncForEach (planets : list Planet) :
  agree h (asyncForEach planets scan_planet) (asyncForEach planets scan_planet).
Proof. induction planets as [|planet planets IH]; simpl; agree_steps. Qed.

#[local] Hint Resolve agree_asyncForEach : agree.

(** The last line of the pass logs whatever id the instance holds. *)
Lemma agree_log_current :
  agree h (chosen <- gets currentPlanetId ;; logger (LogCurrentPlanet chosen))
    (chosen <- gets currentPlanetId ;; logger (LogCurrentPlanet chosen)).
Proof. apply agree_quiet with (r := Ok tt); intro w; eexists; reflexivity. Qed.

#[local] Hint Resolve agree_log_current : agree.

(** Two passes against the snapshot agree. *)
Lemma agree_setupGame : agree h setupGame setupGame.
Proof.
  unfold setupGame. agree_steps.
  destruct x as [planets|]; agree_steps.
  unfold logger, debug.
  destruct (String.eqb (name e) "SalienScriptException"); agree_steps.
Qed.

End Snapshot.

(** C8. Against an unchanged snapshot (every reply is the same function of
    the request), a pass run again on the same instance, right after a first
    pass, settles as the first one did and leaves the same chosen planet id
    in [currentPlanetId]. *)
Theorem setupGame_same_snapshot_same_choice (h : handler) (n : nat)
  (w w1 w2 : world) (r1 r2 : result unit) :
  script w = repeat h n ->
  setupGame w = (w1, r1) ->
  setupGame w1 = (w2, r2) ->
  r1 <> Pending ->
  r2 <> Pending ->
  r2 = r1 /\ currentPlanetId (this w2) = currentPlanetId (this w1).
Proof.
  intros Hs H1 H2 N1 N2.
  assert (S0 : on_snapshot h w) by (exists n; exact Hs).
  destruct (agree_setupGame h w w w1 w1 r1 r1 S0 S0 (same_settings_refl _) H1 H1 N1 N1)
    as [_ [[S1 T1] _]].
  destruct (agree_setupGame h w w1 w1 w2 r1 r2 S0 S1 T1 H1 H2 N1 N2)
    as [Heq [_ [_ [[Ha Hb] | Hc]]]].
  - split; [now symmetry | exact Hb].
  - split; [now symmetry | now symmetry].
Qed.

Lemma setupGame_same_snapshot_same_choice_witness :
  snd (setupGame (fst (setupGame (fresh (repeat snapshot_ABC 4)))))
  = snd (setupGame (fresh (repeat snapshot_ABC 4)))
  /\ currentPlanetId (this (fst (setupGame (fst (setupGame (fresh (repeat snapshot_ABC 4)))))))
     = currentPlanetId (this (fst (setupGame (fresh (repeat snapshot_ABC 4))))).
Proof.
  apply (setupGame_same_snapshot_same_choice snapshot_ABC 4
           (fresh (repeat snapshot_ABC 4))
           (fst (setupGame (fresh (repeat snapshot_ABC 4))))
           (fst (setupGame (fst (setupGame (fresh (repeat snapshot_ABC 4))))))).
  - reflexivity.
  - apply surjective_pairing.
  - apply surjective_pairing.
  - vm_compute. discriminate.
  - vm_compute. discriminate.
Defined.

(** Two fresh instances in front of the same snapshot, whatever the number
    of replies each may draw, choose the same planet when both settle. *)
Corollary setupGame_fresh_instances_agree (h : handler) (n m : nat)
  (token token' : string) (clan clan' : option string)
  (w1 w2 : world) (r1 r2 : result unit) :
  setupGame (mkWorld (constructor token clan) (repeat h n) []) = (w1, r1) ->
  setupGame (mkWorld (constructor token' clan') (repeat h m) []) = (w2, r2) ->
  r1 <> Pending ->
  r2 <> Pending ->
  r1 = r2 /\ currentPlanetId (this w1) = currentPlanetId (this w2).
Proof.
  intros H1 H2 N1 N2.
  assert (Sa : on_snapshot h (mkWorld (constructor token clan) (repeat h n) []))
    by (exists n; reflexivity).
  assert (Sb : on_snapshot h (mkWorld (constructor token' clan') (repeat h m) []))
    by (exists m; reflexivity).
  destruct (agree_setupGame h _ _ w1 w2 r1 r2 Sa Sb
              (conj eq_refl (conj eq_refl eq_refl)) H1 H2 N1 N2)
    as [Heq [_ [_ [[Ha Hb] | Hc]]]].
  - split; [exact Heq | simpl in Ha, Hb; congruence].
  - split; [exact Heq | exact Hc].
Qed.

(** ** The bound on the rounds of the loops *)

(** [while_await] bounds a loop by the length of the script.  The bound is
    never what stops the two loops of the script: each of their rounds that
    completes has consumed a reply, so any larger bound gives the same run,
    and [Pending] stands for a script that ran out only. *)
Lemma while_fuel_irrelevant {S : Type} (cond : S -> bool) (body : S -> M S) :
  (forall x w w' x',
      body x w = (w', Ok x') -> (List.length (script w') < List.length (script w))%nat) ->
  forall fuel fuel' x w,
    (List.length (script w) < fuel)%nat ->
    (List.length (script w) < fuel')%nat ->
    while_ fuel cond body x w = while_ fuel' cond body x w.
Proof.
  intros Hbody fuel. induction fuel as [|fuel IH]; intros fuel' x w Hf Hf'; [lia |].
  destruct fuel' as [|fuel']; [lia |].
  simpl. destruct (cond x); [| reflexivity].
  unfold bind. destruct (body x w) as [w1 [x1 | e | ]] eqn:E; try reflexivity.
  specialize (Hbody _ _ _ _ E). apply IH; lia.
Qed.

Lemma while_progress {S : Type} (cond : S -> bool) (body : S -> M S) :
  (forall x w w' x',
      body x w = (w', Ok x') -> (List.length (script w') < List.length (script w))%nat) ->
  forall fuel x w w' x',
    while_ fuel cond body x w = (w', Ok x') ->
    (w' = w /\ x' = x) \/ (List.length (script w') < List.length (script w))%nat.
Proof.
  intros Hbody fuel. induction fuel as [|fuel IH]; intros x w w' x' H; simpl in H;
    destruct (cond x); try (inversion H; subst; now left).
  unfold bind in H. destruct (body x w) as [w1 [x1 | e | ]] eqn:E; try discriminate.
  specialize (Hbody _ _ _ _ E).
  destruct (IH _ _ _ _ H) as [[-> ->] | Hlt]; right; lia.
Qed.

Lemma bind_ok_inv {A B : Type} (m : M A) (k : A -> M B) (w w' : world) (b : B) :
  bind m k w = (w', Ok b) -> exists w1 a, m w = (w1, Ok a) /\ k a w1 = (w', Ok b).
Proof.
  unfold bind. destruct (m w) as [w1 [a | e | ]]; intro H; try discriminate.
  now exists w1, a.
Qed.

Lemma request_round_consumes (method url : string) (options : fetch_options)
  (maxRetries : Z) (vars vars' : option body * Z) (w w' : world) :
  request_round method url options maxRetries vars w = (w', Ok vars') ->
  (List.length (script w') < List.length (script w))%nat.
Proof.
  destruct vars as [response retries].
  unfold request_round, try_catch, bind, logger, debug, delay, emit, fetch_json,
    gets, ret, throw; simpl.
  destruct (script w) as [|h rest]; [discriminate |].
  destruct (h url options) as [e | b]; simpl.
  - destruct (retries + 1 <? maxRetries); simpl; intro H; inversion H; subst; simpl; lia.
  - intro H; inversion H; subst; simpl; lia.
Qed.

Lemma RequestAPI_consumes (method : string) (params : option (list string))
  (maxRetries : Z) (additionalOptions : additional_options) (w w' : world)
  (r : option payload) :
  RequestAPI method params maxRetries additionalOptions w = (w', Ok r) ->
  (List.length (script w') < List.length (script w))%nat.
Proof.
  intro H. unfold RequestAPI in H.
  apply bind_ok_inv in H. destruct H as [w1 [[response retries] [Hloop Hget]]].
  unfold while_await in Hloop.
  apply while_progress in Hloop; [| intros; eapply request_round_consumes; eassumption].
  assert (Hw : w' = w1)
    by (simpl in Hget; destruct response as [[| | p]|]; inversion Hget; reflexivity).
  subst w1. destruct Hloop as [[-> Hvars] | Hlt]; [| exact Hlt].
  inversion Hvars; subst. discriminate.
Qed.

Lemma ApiGetPlanet_consumes (planetId : string) (w w' : world) (zones : option Planet) :
  ApiGetPlanet planetId w = (w', Ok zones) ->
  (List.length (script w') < List.length (script w))%nat.
Proof.
  intro H. unfold ApiGetPlanet in H.
  apply bind_ok_inv in H. destruct H as [w0 [maxRetries [Hg H]]].
  inversion Hg; subst w0. clear Hg.
  apply bind_ok_inv in H. destruct H as [w1 [response [Hreq Hfirst]]].
  apply RequestAPI_consumes in Hreq.
  assert (Hw : w' = w1).
  { unfold get_first_planet, get_planets, bind, ret, throw in Hfirst.
    destruct response as [[[l|]]|]; inversion Hfirst; reflexivity. }
  now subst.
Qed.

(** The loop of [RequestAPI] under any bound above the length of the script. *)
Lemma request_loop_fuel (method url : string) (options : fetch_options)
  (maxRetries : Z) (vars : option body * Z) (w : world) (fuel : nat) :
  (List.length (script w) < fuel)%nat ->
  while_ fuel (request_again maxRetries)
    (request_round method url options maxRetries) vars w
  = while_await (request_again maxRetries)
      (request_round method url options maxRetries) vars w.
Proof.
  intro Hf. unfold while_await.
  apply while_fuel_irrelevant; [| exact Hf | lia].
  intros; eapply request_round_consumes; eassumption.
Qed.

(** The loop of [setupGame] under any bound above the length of the script. *)
Lemma wait_zones_fuel (planetId : string) (w : world) (fuel : nat) :
  (List.length (script w) < fuel)%nat ->
  while_ fuel no_zones (fun _ => ApiGetPlanet planetId) None w = wait_zones planetId w.
Proof.
  intro Hf. unfold wait_zones, while_await.
  apply while_fuel_irrelevant; [| exact Hf | lia].
  intros; eapply ApiGetPlanet_consumes; eassumption.
Qed.

(** The spin of [setupGame] on a planet whose detail never carries a planet
    object: every reply is consumed and the pass does not settle. *)
Example wait_zones_spins :
  wait_zones "A" (fresh (repeat (reply (Some [])) 5))
  = (mkWorld (constructor "token" None) []
       (trace (fst (wait_zones "A" (fresh (repeat (reply (Some [])) 5))))),
     Pending)
  /\ fetch_count (trace (fst (wait_zones "A" (fresh (repeat (reply (Some [])) 5))))) = 5%nat
  /\ delays (trace (fst (wait_zones "A" (fresh (repeat (reply (Some [])) 5))))) = [].
Proof. vm_compute. repeat split. Qed.

(** A body that decodes to a falsy value is not counted as a failed attempt:
    the loop of [RequestAPI] asks again without a wait. *)
Example RequestAPI_falsy_body :
  RequestAPI "X" None 1 no_additional
    (fresh [ (fun _ _ => Body JsonNull); reply None ])
  = (mkWorld (constructor "token" None) []
       [ Log (LogSending "X");
         Fetch "https://community.steam-api.com/X/v0001" (make_options no_additional);
         Log (LogSending "X");
         Fetch "https://community.steam-api.com/X/v0001" (make_options no_additional) ],
     Ok (Some (mkPayload None))).
Proof. reflexivity. Qed.

(** The binary64 value taken for 0.97 lies within half a unit in the last
    place of 97/100 (and the one for 0.98 of 98/100). *)
Remark js_0_97_nearest :
  js_0_97 = S754_finite false 8736983277098762 (-53)
  /\ 2 * Z.abs (100 * 8736983277098762 - 97 * 2 ^ 53) <= 100
  /\ js_0_98 = S754_finite false 8827055269646172 (-53)
  /\ 2 * Z.abs (100 * 8827055269646172 - 98 * 2 ^ 53) <= 100.
Proof. repeat split; vm_compute; discriminate. Qed.

(** The zones of the samples: which the scan skips. *)
Example sample_zones :
  excluded_b normal_zone = false
  /\ excluded_b boss_zone = false
  /\ excluded_b captured_boss_zone = true
  /\ excluded_b nearly_captured_zone = true
  /\ excluded_b (mkZone (Some 4) (Some 3) (Some js_0_97) None) = false.
Proof. repeat split. Qed.

(** * Further properties of the code *)

(** ** RequestAPI in any run *)

(** A loop invariant: [Inv] holds on the loop variable and the world at the
    head of every round, [Post] of however the loop ends. *)
Lemma while_invariant {S : Type} (Inv : S -> world -> Prop)
  (Post : world -> result S -> Prop) (cond : S -> bool) (body : S -> M S) :
  (forall x w w' r,
      Inv x w -> cond x = true -> body x w = (w', r) ->
      match r with Ok x' => Inv x' w' | _ => Post w' r end) ->
  (forall x w, Inv x w -> cond x = false -> Post w (Ok x)) ->
  (forall x w, Inv x w -> cond x = true -> Post w Pending) ->
  forall fuel x w w' r,
    Inv x w -> while_ fuel cond body x w = (w', r) -> Post w' r.
Proof.
  intros Hbody Hexit Hout fuel.
  induction fuel as [|fuel IH]; intros x w w' r HI H; simpl in H;
    destruct (cond x) eqn:C.
  - inversion H; subst. eapply Hout; eassumption.
  - inversion H; subst. eapply Hexit; eassumption.
  - unfold bind in H. destruct (body x w) as [w1 [x1 | e | ]] eqn:E;
      pose proof (Hbody _ _ _ _ HI C E) as Hstep; simpl in Hstep.
    + eapply IH; eassumption.
    + inversion H; subst. exact Hstep.
    + inversion H; subst. exact Hstep.
  - inversion H; subst. eapply Hexit; eassumption.
Qed.

(** The three ways a round of the loop of [RequestAPI] can go. *)
Lemma request_round_cases (method url : string) (options : fetch_options)
  (maxRetries : Z) (response : option body) (retries : Z) (w w' : world)
  (r : result (option body * Z)) :
  request_round method url options maxRetries (response, retries) w = (w', r) ->
  (r = Pending /\ this w' = this w
   /\ trace w' = trace w ++ [ Log (LogSending method) ])
  \/ (exists b,
         r = Ok (Some b, retries) /\ this w' = this w
         /\ trace w' = trace w ++ [ Log (LogSending method); Fetch url options ])
  \/ (exists e,
         retries + 1 < maxRetries /\ r = Ok (response, retries + 1)
         /\ this w' = this w
         /\ trace w'
            = trace w ++ [ Log (LogSending method); Fetch url options;
                           Log (LogError (name e) method); Log (LogDebug e);
                           Log (LogRetrying method (defaultDelaySec (this w)));
                           Delay (defaultDelayMs (this w)) ])
  \/ (exists e,
         maxRetries <= retries + 1
         /\ r = Throw (SalienScriptException
                         (Some ("Failed " ++ method ++ " after "
                                  ++ string_of_Z (retries + 1) ++ " retries")%string))
         /\ this w' = this w
         /\ trace w'
            = trace w ++ [ Log (LogSending method); Fetch url options;
                           Log (LogError (name e) method); Log (LogDebug e) ]).
Proof.
  intro H. destruct (script w) as [|h tail] eqn:Hs.
  - left. unfold request_round, try_catch, bind, logger, emit, fetch_json in H.
    simpl in H. rewrite Hs in H. inversion H; subst. repeat split.
  - destruct (h url options) as [e | b] eqn:Hh.
    + destruct (Z_lt_dec (retries + 1) maxRetries) as [Hlt | Hge].
      * rewrite (request_round_retry method url options maxRetries w h tail e
                   response retries Hs Hh Hlt) in H.
        inversion H; subst. right; right; left. exists e. repeat split; auto.
      * rewrite (request_round_exhausted method url options maxRetries w h tail e
                   response retries Hs Hh ltac:(lia)) in H.
        inversion H; subst. right; right; right. exists e. repeat split; auto. lia.
    + rewrite (request_round_body method url options maxRetries w h tail b
                 response retries Hs Hh) in H.
      inversion H; subst. right; left. exists b. repeat split; auto.
Qed.

Lemma fetched_app (a b : list event) : fetched (a ++ b) = fetched a ++ fetched b.
Proof.
  induction a as [|[url o | ms | l] a IH]; simpl; auto. now rewrite IH.
Qed.

(** Whatever the replies: how a run of [RequestAPI] relates the world it
    starts in to the world it ends in, and how it can end. *)
Lemma RequestAPI_shape (method : string) (params : option (list string))
  (maxRetries : Z) (additionalOptions : additional_options) (w w' : world)
  (r : result (option payload)) :
  RequestAPI method params maxRetries additionalOptions w = (w', r) ->
  this w' = this w
  /\ (exists new k,
         trace w' = trace w ++ new
         /\ delays new = repeat (defaultDelayMs (this w)) k
         /\ Z.of_nat k <= Z.max 0 (maxRetries - 1)
         /\ Forall (eq (build_url method params, make_options additionalOptions))
              (fetched new))
  /\ match r with
     | Throw e =>
         (1 <= maxRetries
          /\ e = SalienScriptException
                   (Some ("Failed " ++ method ++ " after "
                            ++ string_of_Z maxRetries ++ " retries")%string))
         \/ (maxRetries <= 0 /\ e = TypeError "response" "undefined")
     | _ => True
     end.
Proof.
  intro H. unfold RequestAPI in H.
  set (url := build_url method params) in *.
  set (options := make_options additionalOptions) in *.
  set (ms := defaultDelayMs (this w)).
  set (Inv := fun (x : option body * Z) (w1 : world) =>
                this w1 = this w /\ 0 <= snd x
                /\ (snd x < maxRetries \/ x = (None, 0))
                /\ exists new,
                     trace w1 = trace w ++ new
                     /\ delays new = repeat ms (Z.to_nat (snd x))
                     /\ Forall (eq (url, options)) (fetched new)).
  set (Post := fun (w1 : world) (r1 : result (option body * Z)) =>
                 this w1 = this w
                 /\ (exists new k,
                        trace w1 = trace w ++ new
                        /\ delays new = repeat ms k
                        /\ Z.of_nat k <= Z.max 0 (maxRetries - 1)
                        /\ Forall (eq (url, options)) (fetched new))
                 /\ match r1 with
                    | Ok x => truthy_response (fst x) = true
                              \/ (maxRetries <= 0 /\ fst x = None)
                    | Throw e =>
                        1 <= maxRetries
                        /\ e = SalienScriptException
                                 (Some ("Failed " ++ method ++ " after "
                                          ++ string_of_Z maxRetries ++ " retries")%string)
                    | Pending => True
                    end).
  assert (Hloop : forall w1 r1,
             while_await (request_again maxRetries)
               (request_round method url options maxRetries) (None, 0) w = (w1, r1) ->
             Post w1 r1).
  { intros w1 r1 Hrun. unfold while_await in Hrun. revert Hrun.
    apply (while_invariant Inv Post).
    - intros [response retries] wa wb rb [Ht [H0 [Hlt [new [Hn [Hd Hf]]]]]] Hc Hround.
      simpl in H0, Hlt, Hd.
      assert (Hr : retries < maxRetries)
        by (unfold request_again in Hc; simpl in Hc;
            apply andb_true_iff in Hc; destruct Hc as [_ Hc]; now apply Z.ltb_lt).
      destruct (request_round_cases _ _ _ _ _ _ _ _ _ Hround)
        as [[-> [Ht' Htr]] | [[b [-> [Ht' Htr]]] | [[e [Hl [-> [Ht' Htr]]]]
                                                     | [e [Hg [-> [Ht' Htr]]]]]]].
      + split; [congruence |]. split; [| exact I].
        exists (new ++ [ Log (LogSending method) ]), (Z.to_nat retries).
        rewrite Htr, Hn, app_assoc, delays_app, fetched_app, Hd. simpl.
        rewrite !app_nil_r. repeat split; [clear - H0 Hr; lia | exact Hf].
      + split; [congruence |]. split; [exact H0 |]. split; [left; exact Hr |].
        exists (new ++ [ Log (LogSending method); Fetch url options ]).
        rewrite Htr, Hn, app_assoc, delays_app, fetched_app, Hd. simpl.
        rewrite app_nil_r. repeat split.
        apply Forall_app. split; [exact Hf | repeat constructor].
      + split; [congruence |]. simpl. split; [lia |]. split; [left; exact Hl |].
        exists (new ++ [ Log (LogSending method); Fetch url options;
                         Log (LogError (name e) method); Log (LogDebug e);
                         Log (LogRetrying method (defaultDelaySec (this wa)));
                         Delay (defaultDelayMs (this wa)) ]).
        rewrite Htr, Hn, app_assoc, delays_app, fetched_app, Hd. simpl.
        rewrite Ht. fold ms. split; [reflexivity |]. split.
        * replace (Z.to_nat (retries + 1)) with (Z.to_nat retries + 1)%nat by lia.
          rewrite repeat_app. reflexivity.
        * apply Forall_app. split; [exact Hf | repeat constructor].
      + split; [congruence |]. split.
        * exists (new ++ [ Log (LogSending method); Fetch url options;
                             Log (LogError (name e) method); Log (LogDebug e) ]),
            (Z.to_nat retries).
          rewrite Htr, Hn, app_assoc, delays_app, fetched_app, Hd. simpl.
          rewrite app_nil_r. repeat split; [clear - H0 Hr; lia |].
          apply Forall_app. split; [exact Hf | repeat constructor].
        * split; [lia |]. replace (retries + 1) with maxRetries by lia. reflexivity.
    - intros [response retries] wa [Ht [H0 [Hlt [new [Hn [Hd Hf]]]]]] Hc.
      simpl in H0, Hlt, Hd. split; [exact Ht |]. split.
      + exists new, (Z.to_nat retries). repeat split; auto.
        destruct Hlt as [Hlt | Hx]; [clear - H0 Hlt; lia | inversion Hx; subst; simpl; clear; lia].
      + simpl. unfold request_again in Hc. simpl in Hc.
        apply andb_false_iff in Hc. destruct Hc as [Hc | Hc].
        * left. now apply negb_false_iff in Hc.
        * apply Z.ltb_ge in Hc. destruct Hlt as [Hlt | Hx]; [lia |].
          inversion Hx; subst. right. split; [lia | reflexivity].
    - intros [response retries] wa [Ht [H0 [Hlt [new [Hn [Hd Hf]]]]]] Hc.
      simpl in H0, Hlt, Hd.
      assert (Hr : retries < maxRetries)
        by (unfold request_again in Hc; simpl in Hc;
            apply andb_true_iff in Hc; destruct Hc as [_ Hc]; now apply Z.ltb_lt).
      split; [exact Ht |]. split; [| exact I].
      exists new, (Z.to_nat retries). repeat split; auto. clear - H0 Hr; lia.
    - unfold Inv. simpl. split; [reflexivity |]. split; [lia |].
      split; [right; reflexivity |].
      exists []. rewrite app_nil_r. repeat split. constructor. }
  unfold bind in H.
  destruct (while_await (request_again maxRetries)
              (request_round method url options maxRetries) (None, 0) w)
    as [w1 [[response retries] | e | ]] eqn:E;
    destruct (Hloop _ _ eq_refl) as [Ht [Htrace Hres]].
  - simpl in Hres, H.
    destruct response as [[| | p]|]; inversion H; subst;
      (split; [exact Ht |]); (split; [exact Htrace |]); try exact I.
    + destruct Hres as [Hres | [_ Hres]]; discriminate.
    + destruct Hres as [Hres | [Hres _]]; [discriminate |].
      right. split; [exact Hres | reflexivity].
  - inversion H; subst. split; [exact Ht |]. split; [exact Htrace |].
    left. exact Hres.
  - inversion H; subst. split; [exact Ht |]. split; [exact Htrace | exact I].
Qed.

(** X1. Whatever the replies, an exception that leaves [RequestAPI] is never
    the error of a failed attempt: with a ceiling of at least 1 it is the
    [SalienScriptException] that names the method and counts exactly
    [maxRetries] retries; with a ceiling below 1 it is the [TypeError] on
    [response.response]. *)
Theorem RequestAPI_throws_classified (method : string) (params : option (list string))
  (maxRetries : Z) (additionalOptions : additional_options) (w w' : world)
  (e : js_error) :
  RequestAPI method params maxRetries additionalOptions w = (w', Throw e) ->
  (1 <= maxRetries
   /\ e = SalienScriptException
            (Some ("Failed " ++ method ++ " after "
                     ++ string_of_Z maxRetries ++ " retries")%string))
  \/ (maxRetries <= 0 /\ e = TypeError "response" "undefined").
Proof.
  intro H.
  destruct (RequestAPI_shape _ _ _ _ _ _ _ H) as [_ [_ Hres]].
  exact Hres.
Qed.

Lemma RequestAPI_throws_classified_witness :
  (1 <= 2
   /\ mkError "SalienScriptException" (Some "Failed X after 2 retries"%string)
      = SalienScriptException
          (Some ("Failed " ++ "X" ++ " after " ++ string_of_Z 2 ++ " retries")%string))
  \/ (2 <= 0
      /\ mkError "SalienScriptException" (Some "Failed X after 2 retries"%string)
         = TypeError "response" "undefined").
Proof.
  apply (RequestAPI_throws_classified "X" None 2 no_additional
           (fresh [ (fun _ _ => Body JsonFalsy); transport_failure;
                    (fun _ _ => Body JsonNull); transport_failure ])
           (fst (RequestAPI "X" None 2 no_additional
                   (fresh [ (fun _ _ => Body JsonFalsy); transport_failure;
                            (fun _ _ => Body JsonNull); transport_failure ])))).
  vm_compute. reflexivity.
Defined.

(** X2. Whatever the replies, the waits of one call of [RequestAPI] all last
    [defaultDelayMs], and there are at most [maxRetries - 1] of them (none
    when the ceiling is below 2). *)
Theorem RequestAPI_wait_bound (method : string) (params : option (list string))
  (maxRetries : Z) (additionalOptions : additional_options) (w : world) :
  exists new k,
    trace (fst (RequestAPI method params maxRetries additionalOptions w))
    = trace w ++ new
    /\ delays new = repeat (defaultDelayMs (this w)) k
    /\ Z.of_nat k <= Z.max 0 (maxRetries - 1).
Proof.
  destruct (RequestAPI method params maxRetries additionalOptions w) as [w' r] eqn:H.
  destruct (RequestAPI_shape _ _ _ _ _ _ _ H) as [_ [[new [k [Hn [Hd [Hk _]]]]] _]].
  exists new, k. simpl. repeat split; assumption.
Qed.

(** X3. Whatever the replies, every request of one call of [RequestAPI],
    first attempt or retry, is the same: the URL built from the method and
    the parameters, with the default options overridden by
    [additionalOptions]; and the call leaves the instance as it was. *)
Theorem RequestAPI_same_request (method : string) (params : option (list string))
  (maxRetries : Z) (additionalOptions : additional_options) (w : world) :
  sends (build_url method params) (make_options additionalOptions) w
    (fst (RequestAPI method params maxRetries additionalOptions w)).
Proof.
  destruct (RequestAPI method params maxRetries additionalOptions w) as [w' r] eqn:H.
  destruct (RequestAPI_shape _ _ _ _ _ _ _ H) as [Ht [[new [k [Hn [_ [_ Hf]]]]] _]].
  split; [exact Ht |]. exists new. split; assumption.
Qed.

Lemma request_round_pending (method url : string) (options : fetch_options)
  (maxRetries : Z) (vars : option body * Z) (w : world) :
  script w = [] ->
  request_round method url options maxRetries vars w
  = (mkWorld (this w) [] (trace w ++ [ Log (LogSending method) ]), Pending).
Proof.
  intro Hs. destruct vars as [response retries].
  unfold request_round, try_catch, bind, logger, emit, fetch_json. simpl.
  rewrite Hs. reflexivity.
Qed.

Lemma request_loop_falsy (method url : string) (options : fetch_options)
  (maxRetries : Z) (l : list handler) :
  forall (w : world) (response : option body) (retries : Z) (fuel : nat),
    script w = l ->
    Forall (falsy_reply url options) l ->
    truthy_response response = false ->
    retries < maxRetries ->
    (List.length l < fuel)%nat ->
    exists new,
      while_ fuel (request_again maxRetries)
        (request_round method url options maxRetries) (response, retries) w
      = (mkWorld (this w) [] (trace w ++ new), Pending)
      /\ fetch_count new = List.length l
      /\ delays new = [].
Proof.
  induction l as [|h l IH]; intros w response retries fuel Hs Hall Hr Hlt Hf;
    (destruct fuel as [|fuel]; [simpl in Hf; lia |]);
    rewrite while_enter
      by (unfold request_again; simpl; rewrite Hr; simpl; now apply Z.ltb_lt).
  - rewrite (request_round_pending _ _ _ _ _ w Hs).
    exists [ Log (LogSending method) ]. repeat split.
  - inversion Hall as [|h' l' [b [Hb Hfalsy]] Hall']; subst.
    rewrite (request_round_body method url options maxRetries w h l b
               response retries Hs Hb).
    destruct (IH (mkWorld (this w) l
                    (trace w ++ [ Log (LogSending method); Fetch url options ]))
                (Some b) retries fuel eq_refl Hall' Hfalsy Hlt
                ltac:(simpl in Hf; lia)) as [new [Hrun [Hc Hd]]].
    rewrite Hrun. simpl.
    exists ([ Log (LogSending method); Fetch url options ] ++ new).
    rewrite <- app_assoc, fetch_count_app, delays_app, Hc, Hd. repeat split.
Qed.

(** X4. The retry ceiling does not bound the attempts: a reply that decodes
    to a falsy body ([null], [false], [0], [""]) is asked again at once, with
    no wait and without counting as a retry.  Against replies that are all
    of this kind, a call with a ceiling of at least 1 consumes every one of
    them, waits never, and does not settle. *)
Theorem RequestAPI_falsy_bodies_spin (method : string) (params : option (list string))
  (maxRetries : Z) (additionalOptions : additional_options) (w : world) :
  1 <= maxRetries ->
  Forall (falsy_reply (build_url method params) (make_options additionalOptions))
    (script w) ->
  exists new,
    RequestAPI method params maxRetries additionalOptions w
    = (mkWorld (this w) [] (trace w ++ new), Pending)
    /\ fetch_count new = List.length (script w)
    /\ delays new = [].
Proof.
  intros Hmax Hall.
  destruct (request_loop_falsy method (build_url method params)
              (make_options additionalOptions) maxRetries (script w) w None 0
              (Datatypes.S (List.length (script w))) eq_refl Hall eq_refl
              ltac:(lia) ltac:(lia)) as [new [Hrun [Hc Hd]]].
  exists new. split; [| split; assumption].
  unfold RequestAPI. erewrite bind_pending; [reflexivity |].
  unfold while_await. exact Hrun.
Qed.

Lemma RequestAPI_falsy_bodies_spin_witness :
  exists new,
    RequestAPI "X" None 1 no_additional
      (fresh [ (fun _ _ => Body JsonNull); (fun _ _ => Body JsonFalsy);
               (fun _ _ => Body JsonNull) ])
    = (mkWorld (constructor "token" None) [] ([] ++ new), Pending)
    /\ fetch_count new = 3%nat
    /\ delays new = [].
Proof.
  apply (RequestAPI_falsy_bodies_spin "X" None 1 no_additional
           (fresh [ (fun _ _ => Body JsonNull); (fun _ _ => Body JsonFalsy);
                    (fun _ _ => Body JsonNull) ])).
  - lia.
  - repeat constructor; eexists; split; reflexivity.
Defined.

Lemma drop_last_char (a : string) (c : Ascii.ascii) :
  substring 0 (String.length (a ++ String c "") - 1) (a ++ String c "") = a.
Proof.
  rewrite length_append; simpl String.length.
  replace (String.length a + 1 - 1)%nat with (String.length a) by lia.
  apply substring_prefix.
Qed.

(** X5. Without parameters: for an empty list of parameters the question
    mark itself is what [substring] drops, so the URL ends in [/v0001/]; for
    absent parameters the URL ends in [/v0001]. *)
Theorem build_url_without_params (method : string) :
  build_url method (Some [])
  = ("https://community.steam-api.com/" ++ method ++ "/v0001/")%string
  /\ build_url method None
     = ("https://community.steam-api.com/" ++ method ++ "/v0001")%string.
Proof.
  split; [| reflexivity].
  set (u := ("https://community.steam-api.com/" ++ method ++ "/v0001")%string).
  change (build_url method (Some []))
    with (substring 0 (String.length (u ++ "/?") - 1) (u ++ "/?")).
  replace (u ++ "/?")%string with ((u ++ "/") ++ String (Ascii.ascii_of_nat 63) "")%string
    by (rewrite append_assoc; reflexivity).
  rewrite drop_last_char. unfold u. rewrite !append_assoc. reflexivity.
Qed.

(** ** The endpoint wrappers *)

Lemma build_url_one (method a : string) :
  build_url method (Some [ a ])
  = ("https://community.steam-api.com/" ++ method ++ "/v0001/?" ++ a)%string.
Proof.
  unfold build_url. rewrite fold_params. simpl map. simpl String.concat.
  rewrite <- !append_assoc. rewrite drop_trailing. rewrite !append_assoc. reflexivity.
Qed.

Lemma build_url_two (method a b : string) :
  build_url method (Some [ a; b ])
  = ("https://community.steam-api.com/" ++ method ++ "/v0001/?" ++ a ++ "&" ++ b)%string.
Proof.
  unfold build_url. rewrite fold_params. simpl map. simpl String.concat.
  rewrite <- !append_assoc. rewrite drop_trailing. rewrite !append_assoc. reflexivity.
Qed.

Lemma sends_RequestAPI (method : string) (params : option (list string))
  (maxRetries : Z) (additionalOptions : additional_options) (w : world) :
  sends (build_url method params) (make_options additionalOptions) w
    (fst (RequestAPI method params maxRetries additionalOptions w)).
Proof.
  destruct (RequestAPI method params maxRetries additionalOptions w) as [w' r] eqn:H.
  destruct (RequestAPI_shape _ _ _ _ _ _ _ H) as [Ht [[new [k [Hn [_ [_ Hf]]]]] _]].
  split; [exact Ht |]. exists new. split; assumption.
Qed.

(** A wrapper reads the token and the ceiling, calls [RequestAPI] and hands
    its result on. *)
Lemma wrapper_run (method : string) (params : string -> list string)
  (additionalOptions : additional_options) (w : world) :
  (token <- gets token ;;
   maxRetries <- gets maxRetries ;;
   response <- RequestAPI method (Some (params token)) maxRetries additionalOptions ;;
   ret response) w
  = RequestAPI method (Some (params (token (this w)))) (maxRetries (this w))
      additionalOptions w.
Proof.
  unfold bind, gets, ret.
  destruct (RequestAPI method (Some (params (token (this w)))) (maxRetries (this w))
              additionalOptions w) as [w' [r | e | ]]; reflexivity.
Qed.

(** X6. The four endpoints that change the player's session are requested
    with the verb POST and the other options at their defaults, the access
    token first in the query string and the clan, game or planet id after
    it; this holds of every request they make, retries included, and they
    leave the instance as it was. *)
Theorem post_endpoints_requests (w : world) (clanId gameId planetId : string) :
  make_options post
  = mkOptions 3 1000 (opt_headers (make_options no_additional)) (Some "POST"%string)
  /\ sends ("https://community.steam-api.com/ITerritoryControlMinigameService/GetPlayerInfo/v0001/?access_token="
              ++ token (this w))%string
       (make_options post) w (fst (ApiGetPlayerInfo w))
  /\ sends ("https://community.steam-api.com/ITerritoryControlMinigameService/RepresentClan/v0001/?access_token="
              ++ token (this w) ++ "&clanid=" ++ clanId)%string
       (make_options post) w (fst (ApiRepresentClan clanId w))
  /\ sends ("https://community.steam-api.com/IMiniGameService/LeaveGame/v0001/?access_token="
              ++ token (this w) ++ "&gameid=" ++ gameId)%string
       (make_options post) w (fst (ApiLeaveGame gameId w))
  /\ sends ("https://community.steam-api.com/ITerritoryControlMinigameService/JoinPlanet/v0001/?access_token="
              ++ token (this w) ++ "&id=" ++ planetId)%string
       (make_options post) w (fst (ApiJoinPlanet planetId w)).
Proof.
  splits.
  - reflexivity.
  - unfold ApiGetPlayerInfo.
    rewrite (wrapper_run _ (fun token => [ ("access_token=" ++ token)%string ])).
    pose proof (sends_RequestAPI "ITerritoryControlMinigameService/GetPlayerInfo"
                  (Some [ ("access_token=" ++ token (this w))%string ])
                  (maxRetries (this w)) post w) as H.
    rewrite build_url_one in H. apply H.
  - unfold ApiRepresentClan.
    rewrite (wrapper_run _ (fun token => [ ("access_token=" ++ token)%string;
                                           ("clanid=" ++ clanId)%string ])).
    pose proof (sends_RequestAPI "ITerritoryControlMinigameService/RepresentClan"
                  (Some [ ("access_token=" ++ token (this w))%string;
                          ("clanid=" ++ clanId)%string ])
                  (maxRetries (this w)) post w) as H.
    rewrite build_url_two in H. rewrite !append_assoc in H. apply H.
  - unfold ApiLeaveGame.
    rewrite (wrapper_run _ (fun token => [ ("access_token=" ++ token)%string;
                                           ("gameid=" ++ gameId)%string ])).
    pose proof (sends_RequestAPI "IMiniGameService/LeaveGame"
                  (Some [ ("access_token=" ++ token (this w))%string;
                          ("gameid=" ++ gameId)%string ])
                  (maxRetries (this w)) post w) as H.
    rewrite build_url_two in H. rewrite !append_assoc in H. apply H.
  - unfold ApiJoinPlanet.
    rewrite (wrapper_run _ (fun token => [ ("access_token=" ++ token)%string;
                                           ("id=" ++ planetId)%string ])).
    pose proof (sends_RequestAPI "ITerritoryControlMinigameService/JoinPlanet"
                  (Some [ ("access_token=" ++ token (this w))%string;
                          ("id=" ++ planetId)%string ])
                  (maxRetries (this w)) post w) as H.
    rewrite build_url_two in H. rewrite !append_assoc in H. apply H.
Qed.

(** ** getFirstAvailablePlanet *)

(** X7. [getFirstAvailablePlanet] only calls [GetPlanets]: it leaves the
    instance as it was (no planet is chosen or recorded) and requests
    nothing but the planets list.  It returns nothing when the list is
    present, empty or not; it fails with "Didn't find any planets." when the
    list is absent; and any failure of the call itself is passed on. *)
Theorem getFirstAvailablePlanet_only_lists (w w' : world) (r : result unit) :
  getFirstAvailablePlanet w = (w', r) ->
  requests (build_url "ITerritoryControlMinigameService/GetPlanets"
              (Some [ "active_only=1"%string ])) w w'
  /\ match r with
     | Ok _ => exists l, ApiGetPlanets w = (w', Ok (Some l))
     | Throw e =>
         ApiGetPlanets w = (w', Throw e)
         \/ (ApiGetPlanets w = (w', Ok None)
             /\ e = SalienScriptException (Some "Didn't find any planets."%string))
     | Pending => ApiGetPlanets w = (w', Pending)
     end.
Proof.
  intro H. unfold getFirstAvailablePlanet, bind in H.
  destruct (ApiGetPlanets w) as [w1 [[l|] | e | ]] eqn:E;
    inversion H; subst; (split; [exact (requests_ApiGetPlanets _ _ _ E) |]).
  - exists l. reflexivity.
  - right. split; reflexivity.
  - left. reflexivity.
  - reflexivity.
Qed.

Lemma getFirstAvailablePlanet_only_lists_witness :
  requests (build_url "ITerritoryControlMinigameService/GetPlanets"
              (Some [ "active_only=1"%string ]))
    (fresh [ reply (Some []) ]) (fst (getFirstAvailablePlanet (fresh [ reply (Some []) ])))
  /\ exists l,
       ApiGetPlanets (fresh [ reply (Some []) ])
       = (fst (getFirstAvailablePlanet (fresh [ reply (Some []) ])), Ok (Some l)).
Proof.
  apply (getFirstAvailablePlanet_only_lists (fresh [ reply (Some []) ])
           (fst (getFirstAvailablePlanet (fresh [ reply (Some []) ]))) (Ok tt)).
  reflexivity.
Defined.

(** ** The failures of the pass *)

(** X8. A body of [GetPlanets] that decodes but has no [response] property:
    the pass fails with the engine's [TypeError] on [response.planets], not
    with a [SalienScriptException], after this one request. *)
Theorem setupGame_planets_of_undefined (w : world) (h : handler) (tail : list handler) :
  script w = h :: tail ->
  h (build_url "ITerritoryControlMinigameService/GetPlanets"
       (Some [ "active_only=1"%string ])) (make_options no_additional)
  = Body (JsonObject None) ->
  1 <= maxRetries (this w) ->
  setupGame w
  = (mkWorld (this w) tail
       (trace w ++ [ Log (LogSending "ITerritoryControlMinigameService/GetPlanets");
                     Fetch (build_url "ITerritoryControlMinigameService/GetPlanets"
                              (Some [ "active_only=1"%string ]))
                       (make_options no_additional) ]),
     Throw (TypeError "planets" "undefined"))
  /\ name (TypeError "planets" "undefined") <> "SalienScriptException"%string.
Proof.
  intros Hs Hh Hmax. split; [| discriminate].
  unfold setupGame. erewrite bind_throw; [reflexivity |].
  unfold ApiGetPlanets.
  run_bind ltac:(reflexivity).
  run_bind ltac:(apply (RequestAPI_first_try _ _ _ _ w h tail None Hs Hh Hmax)).
  reflexivity.
Qed.

Lemma setupGame_planets_of_undefined_witness :
  setupGame (fresh [ (fun _ _ => Body (JsonObject None)); reply (Some [ planet_A ]) ])
  = (mkWorld (constructor "token" None) [ reply (Some [ planet_A ]) ]
       ([] ++ [ Log (LogSending "ITerritoryControlMinigameService/GetPlanets");
                Fetch (build_url "ITerritoryControlMinigameService/GetPlanets"
                         (Some [ "active_only=1"%string ]))
                  (make_options no_additional) ]),
     Throw (TypeError "planets" "undefined"))
  /\ name (TypeError "planets" "undefined") <> "SalienScriptException"%string.
Proof.
  apply (setupGame_planets_of_undefined
           (fresh [ (fun _ _ => Body (JsonObject None)); reply (Some [ planet_A ]) ])
           (fun _ _ => Body (JsonObject None)) [ reply (Some [ planet_A ]) ]).
  - reflexivity.
  - reflexivity.
  - simpl. lia.
Defined.

(** A ceiling of failed attempts in a row exhausts [RequestAPI]. *)
Lemma RequestAPI_exhausts (method : string) (params : option (list string))
  (maxRetries : Z) (additionalOptions : additional_options) (w : world)
  (failing rest : list handler) :
  1 <= maxRetries ->
  Z.of_nat (List.length failing) = maxRetries ->
  script w = failing ++ rest ->
  Forall (fails_on (build_url method params) (make_options additionalOptions)) failing ->
  exists new,
    RequestAPI method params maxRetries additionalOptions w
    = (mkWorld (this w) rest (trace w ++ new),
       Throw (SalienScriptException
                (Some ("Failed " ++ method ++ " after "
                         ++ string_of_Z maxRetries ++ " retries")%string)))
    /\ fetch_count new = List.length failing
    /\ delays new = repeat (defaultDelayMs (this w)) (List.length failing - 1).
Proof.
  intros Hmax Hlen Hs Hall.
  assert (Hne : failing <> []) by (intro Hn; rewrite Hn in Hlen; simpl in Hlen; lia).
  destruct (exists_last Hne) as [firsts [last Hsplit]]. rewrite Hsplit in *.
  clear Hsplit Hne.
  apply Forall_app in Hall. destruct Hall as [Hfirsts Hlast].
  apply Forall_inv in Hlast. destruct Hlast as [e He].
  rewrite length_app in Hlen. simpl in Hlen.
  rewrite <- app_assoc in Hs. simpl in Hs.
  destruct (request_loop_failing method (build_url method params)
              (make_options additionalOptions) maxRetries firsts w (last :: rest) 0
              Hfirsts Hs ltac:(lia)) as [new [Hf [Hd [_ Hrun]]]].
  exists (new ++ [ Log (LogSending method);
                   Fetch (build_url method params) (make_options additionalOptions);
                   Log (LogError (name e) method); Log (LogDebug e) ]).
  split; [| split].
  - unfold RequestAPI. erewrite bind_throw; [reflexivity |].
    unfold while_await.
    replace (Datatypes.S (List.length (script w)))
      with (List.length firsts + Datatypes.S (Datatypes.S (List.length rest)))%nat
      by (rewrite Hs, length_app; simpl; lia).
    rewrite Hrun.
    rewrite while_enter by (unfold request_again; simpl; apply Z.ltb_lt; lia).
    rewrite (request_round_exhausted method _ _ maxRetries
               (mkWorld (this w) (last :: rest) (trace w ++ new)) last rest
               e None _ eq_refl He) by lia.
    replace (0 + Z.of_nat (List.length firsts) + 1) with maxRetries by lia.
    simpl. rewrite <- app_assoc. reflexivity.
  - rewrite fetch_count_app, Hf, length_app. reflexivity.
  - rewrite delays_app, Hd, length_app. simpl. rewrite app_nil_r.
    f_equal. lia.
Qed.

(** X9. When the detail request of the first planet exhausts its retries,
    the [SalienScriptException] of [RequestAPI] is caught by the handler
    meant for the selection: the pass writes the line that announces a boss
    zone and ends normally, with the planet recorded in [knownPlanets] but
    no planet chosen. *)
Theorem setupGame_swallows_exhausted_detail (w w1 : world) (planet : Planet)
  (others : list Planet) (failing rest : list handler) :
  ApiGetPlanets w = (w1, Ok (Some (planet :: others))) ->
  1 <= maxRetries (this w1) ->
  Z.of_nat (List.length failing) = maxRetries (this w1) ->
  script w1 = failing ++ rest ->
  Forall (fails_on (detail_url (id planet)) (make_options no_additional)) failing ->
  exists w' new,
    setupGame w = (w', Ok tt)
    /\ this w' = with_known (this w) (id planet)
    /\ currentPlanetId (this w') = currentPlanetId (this w)
    /\ script w' = rest
    /\ trace w' = trace w1 ++ new
    /\ fetch_count new = List.length failing
    /\ In (Log LogBossSelected) new.
Proof.
  intros Hp Hmax Hlen Hs Hall.
  destruct (requests_ApiGetPlanets _ _ _ Hp) as [Hthis _].
  set (w2 := fst (push_knownPlanets (id planet) w1)).
  destruct (RequestAPI_exhausts "ITerritoryControlMinigameService/GetPlanet"
              (Some [ ("id=" ++ id planet)%string; "language=english"%string ])
              (maxRetries (this w1)) no_additional w2 failing rest
              Hmax Hlen Hs Hall) as [new [Hreq [Hc _]]].
  assert (Hwait : wait_zones (id planet) w2
                  = (mkWorld (this w2) rest (trace w2 ++ new),
                     Throw (SalienScriptException
                              (Some ("Failed ITerritoryControlMinigameService/GetPlanet after "
                                       ++ string_of_Z (maxRetries (this w1))
                                       ++ " retries")%string)))).
  { unfold wait_zones, while_await. rewrite while_enter by reflexivity.
    unfold ApiGetPlanet.
    run_bind ltac:(reflexivity).
    erewrite bind_throw by exact Hreq. reflexivity. }
  assert (Hscan : scan_planet planet w1
                  = (mkWorld (this w2) rest (trace w2 ++ new),
                     Throw (SalienScriptException
                              (Some ("Failed ITerritoryControlMinigameService/GetPlanet after "
                                       ++ string_of_Z (maxRetries (this w1))
                                       ++ " retries")%string)))).
  { unfold scan_planet. run_bind ltac:(reflexivity).
    erewrite bind_throw by exact Hwait. reflexivity. }
  do 2 eexists. split.
  - unfold setupGame. run_bind ltac:(exact Hp).
    erewrite bind_ok.
    2:{ unfold try_catch. simpl asyncForEach.
        erewrite bind_throw by exact Hscan. simpl. reflexivity. }
    cbv beta. run_bind ltac:(reflexivity). reflexivity.
  - simpl. rewrite Hthis. splits; try reflexivity.
    + rewrite <- !app_assoc. reflexivity.
    + rewrite !fetch_count_app, Hc. simpl. lia.
    + apply in_or_app. right. left. reflexivity.
Qed.

Lemma setupGame_swallows_exhausted_detail_witness :
  exists w' new,
    setupGame (fresh [ reply (Some [ planet_A; planet_B ]);
                       transport_failure; transport_failure;
                       reply (Some [ detail_A ]) ])
    = (w', Ok tt)
    /\ this w' = with_known (constructor "token" None) "A"
    /\ currentPlanetId (this w') = None
    /\ script w' = [ reply (Some [ detail_A ]) ]
    /\ trace w'
       = trace (fst (ApiGetPlanets
                       (fresh [ reply (Some [ planet_A; planet_B ]);
                                transport_failure; transport_failure;
                                reply (Some [ detail_A ]) ]))) ++ new
    /\ fetch_count new = 2%nat
    /\ In (Log LogBossSelected) new.
Proof.
  apply (setupGame_swallows_exhausted_detail
           (fresh [ reply (Some [ planet_A; planet_B ]);
                    transport_failure; transport_failure;
                    reply (Some [ detail_A ]) ])
           (fst (ApiGetPlanets
                   (fresh [ reply (Some [ planet_A; planet_B ]);
                            transport_failure; transport_failure;
                            reply (Some [ detail_A ]) ])))
           planet_A [ planet_B ] [ transport_failure; transport_failure ]
           [ reply (Some [ detail_A ]) ]).
  - reflexivity.
  - vm_compute. discriminate.
  - reflexivity.
  - reflexivity.
  - repeat constructor; eexists; reflexivity.
Defined.

(** ** What a pass can do to the instance *)

(** The callback never returns: it ends in an exception or does not settle.
    It records its planet, and chooses it exactly when it reaches its last
    line. *)
Lemma scan_planet_effect (planet : Planet) (w w' : world) (r : result unit) :
  scan_planet planet w = (w', r) ->
  (this w' = with_known (this w) (id planet) /\ (r = Pending \/ exists e, r = Throw e))
  \/ (this w' = with_current (with_known (this w) (id planet)) (id planet)
      /\ r = Throw (SalienScriptException None)).
Proof.
  intro H. unfold scan_planet in H.
  erewrite bind_ok in H by reflexivity. cbv beta in H.
  unfold bind at 1 in H.
  destruct (wait_zones (id planet) (mkWorld (with_known (this w) (id planet))
                                      (script w) (trace w)))
    as [w2 r2] eqn:E.
  destruct (requests_wait_zones _ _ _ _ E) as [Ht _]. simpl in Ht.
  destruct r2 as [[detail|] | e | ].
  - destruct (zones detail) as [l|].
    + unfold bind at 1, ret at 1 in H. unfold bind at 1 in H.
      destruct (forEach_zone_run l initial_counters w2) as [c [n [Hrun [_ [Hb _]]]]].
      rewrite Hrun in H. specialize (Hb eq_refl).
      destruct (state planet) as [st|].
      * unfold bind, ret, logger, emit, set_currentPlanetId, throw in H.
        rewrite Hb in H. simpl in H.
        destruct (unknownZones c =? 0); simpl in H; inversion H; subst; simpl;
          right; rewrite Ht; split; reflexivity.
      * unfold bind, throw in H. inversion H; subst. simpl.
        left. split; [exact Ht | right; eexists; reflexivity].
    + unfold bind, throw in H. inversion H; subst.
      left. split; [exact Ht | right; eexists; reflexivity].
  - unfold bind, throw in H. inversion H; subst.
    left. split; [exact Ht | right; eexists; reflexivity].
  - inversion H; subst. left. split; [exact Ht | right; eexists; reflexivity].
  - inversion H; subst. left. split; [exact Ht | left; reflexivity].
Qed.

(** The loop over the planets never goes past its first planet. *)
Lemma asyncForEach_first_only (planet : Planet) (others : list Planet) (w : world) :
  asyncForEach (planet :: others) scan_planet w = scan_planet planet w.
Proof.
  simpl. unfold bind.
  destruct (scan_planet planet w) as [w' r] eqn:E.
  destruct (scan_planet_effect _ _ _ _ E) as [[_ [-> | [e ->]]] | [_ ->]]; reflexivity.
Qed.

(** What a pass does to the instance, the first planet being that of the
    list that [GetPlanets] returns in [w], if it returns one. *)
Lemma setupGame_pass_effect (w w' : world) (r : result unit) :
  setupGame w = (w', r) ->
  pass_effect
    (match snd (ApiGetPlanets w) with
     | Ok (Some (planet :: _)) => Some (id planet)
     | _ => None
     end)
    (this w) (this w').
Proof.
  intro H.
  destruct (ApiGetPlanets w) as [w1 r1] eqn:Hp.
  destruct (requests_ApiGetPlanets _ _ _ Hp) as [Hthis _]. simpl.
  destruct r1 as [[planets|] | e | ].
  - destruct (setupGame_after_scan w w1 w' planets r Hp H)
      as [wl [rl [logs [Hloop [Ht _]]]]].
    destruct planets as [|planet others].
    + inversion Hloop; subst. left. congruence.
    + rewrite asyncForEach_first_only in Hloop.
      right. exists (id planet). split; [reflexivity |].
      destruct (scan_planet_effect _ _ _ _ Hloop) as [[Hk _] | [Hk _]];
        [left | right]; congruence.
  - unfold setupGame in H. erewrite bind_ok in H by exact Hp.
    inversion H; subst. left. exact Hthis.
  - unfold setupGame in H. erewrite bind_throw in H by exact Hp.
    inversion H; subst. left. exact Hthis.
  - unfold setupGame in H. erewrite bind_pending in H by exact Hp.
    inversion H; subst. left. exact Hthis.
Qed.

(** X10. Whatever the replies, a pass does one of three things to the
    instance: nothing; or it appends the id of the first planet of the list
    to [knownPlanets]; or it appends that id and sets [currentPlanetId] to
    it.  No planet after the first is ever recorded or chosen, and every
    detail request of the pass is for the first planet. *)
Theorem setupGame_first_planet_only (w w1 w' : world) (planets : list Planet)
  (r : result unit) :
  ApiGetPlanets w = (w1, Ok (Some planets)) ->
  setupGame w = (w', r) ->
  pass_effect (option_map id (hd_error planets)) (this w) (this w')
  /\ exists new,
       trace w' = trace w1 ++ new
       /\ Forall (fun url => option_map (fun planet => detail_url (id planet))
                               (hd_error planets) = Some url)
            (fetched_urls new).
Proof.
  intros Hp H. split.
  - pose proof (setupGame_pass_effect w w' r H) as He.
    rewrite Hp in He. simpl in He. destruct planets; exact He.
  - destruct (setupGame_after_scan w w1 w' planets r Hp H)
      as [wl [rl [logs [Hloop [_ [_ [Htr Hlogs]]]]]]].
    destruct planets as [|planet others].
    + inversion Hloop; subst. exists logs. split; [exact Htr |].
      rewrite Hlogs. constructor.
    + rewrite asyncForEach_first_only in Hloop.
      destruct (scan_planet_known planet _ _ _ Hloop) as [_ [n [Hn Hf]]].
      exists (n ++ logs). split.
      * rewrite Htr, Hn, app_assoc. reflexivity.
      * rewrite fetched_urls_app, Hlogs, app_nil_r.
        eapply Forall_impl; [| exact Hf]. intros url Hu. simpl. now rewrite Hu.
Qed.

Lemma setupGame_first_planet_only_witness :
  pass_effect (Some "A"%string) (constructor "token" None)
    (this (fst (setupGame (fresh (repeat snapshot_ABC 4)))))
  /\ exists new,
       trace (fst (setupGame (fresh (repeat snapshot_ABC 4))))
       = trace (fst (ApiGetPlanets (fresh (repeat snapshot_ABC 4)))) ++ new
       /\ Forall (fun url => Some (detail_url "A") = Some url) (fetched_urls new).
Proof.
  apply (setupGame_first_planet_only (fresh (repeat snapshot_ABC 4))
           (fst (ApiGetPlanets (fresh (repeat snapshot_ABC 4))))
           (fst (setupGame (fresh (repeat snapshot_ABC 4))))
           [ planet_A; planet_B; planet_C ]
           (snd (setupGame (fresh (repeat snapshot_ABC 4))))).
  - vm_compute. reflexivity.
  - apply surjective_pairing.
Defined.

(** An error of the scan that is not a [SalienScriptException] is written by
    [debug] and thrown again as a [SalienScriptException] with its message. *)
Lemma setupGame_rethrows (w w1 wl : world) (planet : Planet) (others : list Planet)
  (e : js_error) :
  ApiGetPlanets w = (w1, Ok (Some (planet :: others))) ->
  scan_planet planet w1 = (wl, Throw e) ->
  String.eqb (name e) "SalienScriptException" = false ->
  setupGame w
  = (mkWorld (this wl) (script wl) (trace wl ++ [ Log (LogDebug e) ]),
     Throw (SalienScriptException (message e))).
Proof.
  intros Hp Hscan Hname. unfold setupGame. run_bind ltac:(exact Hp).
  erewrite bind_throw; [reflexivity |].
  unfold try_catch. rewrite asyncForEach_first_only, Hscan, Hname.
  unfold debug. erewrite bind_ok by reflexivity. reflexivity.
Qed.

(** X11. A planet detail without a zone list, or a list entry without its
    state, makes the scan fail on a property of [undefined]; the pass
    writes the [TypeError] through [debug] and fails with a
    [SalienScriptException] that carries the message of the [TypeError].
    The planet is recorded in [knownPlanets] and no planet is chosen. *)
Theorem setupGame_rethrows_type_error (w w1 w2 : world) (planet detail : Planet)
  (others : list Planet) :
  ApiGetPlanets w = (w1, Ok (Some (planet :: others))) ->
  wait_zones (id planet) (fst (push_knownPlanets (id planet) w1)) = (w2, Ok (Some detail)) ->
  zones detail = None \/ state planet = None ->
  exists w' property,
    setupGame w
    = (w', Throw (SalienScriptException
                    (Some ("Cannot read property '" ++ property ++ "' of undefined")%string)))
    /\ property = match zones detail with
                  | Some _ => "capture_progress"%string
                  | None => "forEach"%string
                  end
    /\ this w' = with_known (this w) (id planet)
    /\ script w' = script w2
    /\ In (Log (LogDebug (TypeError property "undefined"))) (trace w').
Proof.
  intros Hp Hwait Hmissing.
  destruct (requests_ApiGetPlanets _ _ _ Hp) as [Hthis _].
  destruct (requests_wait_zones _ _ _ _ Hwait) as [Ht2 _]. simpl in Ht2.
  destruct (zones detail) as [l|] eqn:Hz.
  - destruct Hmissing as [Hm | Hst]; [discriminate |].
    destruct (forEach_zone_run l initial_counters w2) as [c [n [Hrun _]]].
    assert (Hscan : scan_planet planet w1
                    = (mkWorld (this w2) (script w2) (trace w2 ++ n),
                       Throw (TypeError "capture_progress" "undefined"))).
    { unfold scan_planet. run_bind ltac:(reflexivity).
      run_bind ltac:(exact Hwait). rewrite Hz.
      run_bind ltac:(reflexivity). run_bind ltac:(exact Hrun).
      rewrite Hst. erewrite bind_throw by reflexivity. reflexivity. }
    do 2 eexists. split; [exact (setupGame_rethrows _ _ _ _ _ _ Hp Hscan eq_refl) |].
    simpl. splits; try reflexivity.
    + rewrite Ht2, Hthis. reflexivity.
    + apply in_or_app. right. left. reflexivity.
  - assert (Hscan : scan_planet planet w1
                    = (w2, Throw (TypeError "forEach" "undefined"))).
    { unfold scan_planet. run_bind ltac:(reflexivity).
      run_bind ltac:(exact Hwait). rewrite Hz.
      erewrite bind_throw by reflexivity. reflexivity. }
    do 2 eexists. split; [exact (setupGame_rethrows _ _ _ _ _ _ Hp Hscan eq_refl) |].
    simpl. splits; try reflexivity.
    + rewrite Ht2, Hthis. reflexivity.
    + apply in_or_app. right. left. reflexivity.
Qed.

Lemma setupGame_rethrows_type_error_witness :
  exists w' property,
    setupGame (fresh [ reply (Some [ planet_A ]); reply (Some [ planet_A ]) ])
    = (w', Throw (SalienScriptException
                    (Some ("Cannot read property '" ++ property ++ "' of undefined")%string)))
    /\ (property = "forEach"%string)
    /\ this w' = with_known (constructor "token" None) "A"
    /\ script w' = []
    /\ In (Log (LogDebug (TypeError property "undefined"))) (trace w').
Proof.
  apply (setupGame_rethrows_type_error
           (fresh [ reply (Some [ planet_A ]); reply (Some [ planet_A ]) ])
           (fst (ApiGetPlanets
                   (fresh [ reply (Some [ planet_A ]); reply (Some [ planet_A ]) ])))
           (fst (wait_zones "A"
                   (fst (push_knownPlanets "A"
                           (fst (ApiGetPlanets
                                   (fresh [ reply (Some [ planet_A ]);
                                            reply (Some [ planet_A ]) ])))))))
           planet_A planet_A []).
  - reflexivity.
  - reflexivity.
  - left. reflexivity.
Defined.

(** ** The tally of a planet *)

Lemma tally_total (l : list Zone) :
  tally l Hard + tally l Medium + tally l Easy + tally l Unknown = eligible_count l.
Proof.
  induction l as [|zone l IH].
  - reflexivity.
  - rewrite !tally_cons. unfold eligible_count in *. cbn [filter].
    destruct (excluded_b zone); cbn [negb andb].
    + lia.
    + cbn [List.length]. rewrite Nat2Z.inj_succ.
      destruct (bucket_of zone); cbn [bucket_eqb]; lia.
Qed.

(** X12. The scan of a zone list makes no request and leaves the instance
    alone; from the initial counters it ends with, in each bucket, the
    number of eligible zones of that difficulty, so that the four counters
    add up to the number of eligible zones of the list: a zone that is
    captured or above 0.97 is counted nowhere, any other zone exactly once. *)
Theorem forEach_zone_counts_eligible (l : list Zone) (w : world) :
  exists c new,
    forEach_zone l initial_counters w
    = (mkWorld (this w) (script w) (trace w ++ new), Ok c)
    /\ fetched_urls new = []
    /\ (forall b, count b c = tally l b)
    /\ hardZones c + mediumZones c + easyZones c + unknownZones c = eligible_count l.
Proof.
  destruct (forEach_zone_run l initial_counters w) as [c [n [Hrun [Hf [_ Hc]]]]].
  exists c, n. splits; try assumption.
  - intro b. rewrite Hc. destruct b; reflexivity.
  - rewrite <- tally_total.
    rewrite <- (Z.add_0_l (tally l Hard)), <- (Z.add_0_l (tally l Medium)),
      <- (Z.add_0_l (tally l Easy)), <- (Z.add_0_l (tally l Unknown)).
    change 0 with (count Hard initial_counters) at 1.
    rewrite <- (Hc Hard).
    change 0 with (count Medium initial_counters) at 1.
    rewrite <- (Hc Medium).
    change 0 with (count Easy initial_counters) at 1.
    rewrite <- (Hc Easy).
    change 0 with (count Unknown initial_counters) at 1.
    rewrite <- (Hc Unknown). reflexivity.
Qed.

(** ** init and gameLoop *)

(** The [try] block of [init] never completes: when the pass returns,
    [gameLoop] throws. *)
Lemma init_try_run (w : world) :
  init_try w
  = match setupGame w with
    | (w1, Ok _) =>
        (w1, Throw (SalienScriptException (Some "gameLoop() not yet implemented"%string)))
    | (w1, Throw e) => (w1, Throw e)
    | (w1, Pending) => (w1, Pending)
    end.
Proof.
  unfold init_try, bind. destruct (setupGame w) as [w1 [[] | e | ]]; reflexivity.
Qed.

(** The settings of an instance and the growth of [knownPlanets] through a
    pass. *)
Lemma pass_effect_grows (first : option string) (t t' : SalienScript) :
  pass_effect first t t' -> grows t t'.
Proof.
  intros [-> | [planetId [_ [-> | ->]]]]; split; try (repeat split; fail).
  - exists []. now rewrite app_nil_r.
  - exists [planetId]. reflexivity.
  - exists [planetId]. reflexivity.
Qed.

Lemma grows_refl (t : SalienScript) : grows t t.
Proof. split; [repeat split | exists []; now rewrite app_nil_r]. Qed.

Lemma grows_trans (a b c : SalienScript) : grows a b -> grows b c -> grows a c.
Proof.
  intros [Hs [x Hx]] [Hs' [y Hy]]. split; [eapply same_settings_trans; eassumption |].
  exists (x ++ y). rewrite Hy, Hx, app_assoc. reflexivity.
Qed.

Lemma init_try_grows (w w' : world) (r : result unit) :
  init_try w = (w', r) -> grows (this w) (this w').
Proof.
  intro H. rewrite init_try_run in H.
  destruct (setupGame w) as [w1 r1] eqn:E.
  apply setupGame_pass_effect, pass_effect_grows in E.
  destruct r1 as [[] | e | ]; inversion H; subst; exact E.
Qed.

(** One entry of [init], by the outcome of its [try] block. *)
Lemma init_round_run (pkgVersion : string) (p : process) :
  init_round pkgVersion p
  = match init_try (run p) with
    | (w, Throw e) =>
        (mkProcess
           (mkWorld (this w) (script w) (trace w ++ [ Delay (defaultDelayMs (this w)) ]))
           (console p
              ++ [ (List.length (trace (run p)), LogStarted pkgVersion);
                   (List.length (trace w), LogFailure (name e) (message e));
                   (List.length (trace w), LogRestart (defaultDelaySec (this w))) ]),
         Ok tt)
    | (w, r) =>
        (mkProcess w
           (console p ++ [ (List.length (trace (run p)), LogStarted pkgVersion) ]),
         r)
    end.
Proof.
  unfold init_round, init_logger. simpl.
  destruct (init_try (run p)) as [w [[] | e | ]]; simpl; try reflexivity.
  rewrite <- !app_assoc. reflexivity.
Qed.

(** X13. An entry of [init] never fails: whatever the pass or [gameLoop]
    throws is caught.  It either does not settle (a reply is awaited that
    never comes) or reaches its last statement, the call that enters [init]
    again, and then it has written the failure and the restart notice and
    its last event is one wait of [defaultDelayMs]. *)
Theorem init_round_always_restarts (pkgVersion : string) (p p' : process)
  (r : result unit) :
  init_round pkgVersion p = (p', r) ->
  (r = Ok tt \/ r = Pending)
  /\ (r = Ok tt ->
      exists tr e n1 n2,
        trace (run p') = tr ++ [ Delay (defaultDelayMs (this (run p'))) ]
        /\ console p'
           = console p
             ++ [ (n1, LogStarted pkgVersion);
                  (n2, LogFailure (name e) (message e));
                  (n2, LogRestart (defaultDelaySec (this (run p')))) ]).
Proof.
  intro H. rewrite init_round_run in H.
  destruct (init_try (run p)) as [w r0] eqn:E.
  assert (Hr0 : r0 <> Ok tt).
  { rewrite init_try_run in E.
    destruct (setupGame (run p)) as [w1 [[] | e | ]]; inversion E; discriminate. }
  destruct r0 as [[] | e | ]; [congruence | |]; inversion H; subst.
  - split; [left; reflexivity |]. intros _.
    exists (trace w), e. do 2 eexists. simpl. split; reflexivity.
  - split; [right; reflexivity |]. discriminate.
Qed.

Lemma init_round_always_restarts_witness :
  (snd (init_round "1.0.0" (mkProcess (fresh (repeat snapshot_ABC 2)) [])) = Ok tt
   \/ snd (init_round "1.0.0" (mkProcess (fresh (repeat snapshot_ABC 2)) [])) = Pending)
  /\ (snd (init_round "1.0.0" (mkProcess (fresh (repeat snapshot_ABC 2)) [])) = Ok tt ->
      exists tr e n1 n2,
        trace (run (fst (init_round "1.0.0" (mkProcess (fresh (repeat snapshot_ABC 2)) []))))
        = tr ++ [ Delay (defaultDelayMs
                           (this (run (fst (init_round "1.0.0"
                                              (mkProcess (fresh (repeat snapshot_ABC 2))
                                                 [])))))) ]
        /\ console (fst (init_round "1.0.0" (mkProcess (fresh (repeat snapshot_ABC 2)) [])))
           = [] ++ [ (n1, LogStarted "1.0.0");
                     (n2, LogFailure (name e) (message e));
                     (n2, LogRestart
                            (defaultDelaySec
                               (this (run (fst (init_round "1.0.0"
                                                  (mkProcess
                                                     (fresh (repeat snapshot_ABC 2))
                                                     []))))))) ]).
Proof.
  apply (init_round_always_restarts "1.0.0"
           (mkProcess (fresh (repeat snapshot_ABC 2)) [])).
  apply surjective_pairing.
Defined.

(** X14. A pass that returns, with or without a planet chosen, is followed
    by [gameLoop], which throws: the entry writes the failure
    "gameLoop() not yet implemented", waits and restarts.  The game is never
    played, and the restart keeps the instance that the pass left. *)
Theorem init_round_after_pass (pkgVersion : string) (p : process) (w : world) :
  setupGame (run p) = (w, Ok tt) ->
  exists p',
    init_round pkgVersion p = (p', Ok tt)
    /\ this (run p') = this w
    /\ script (run p') = script w
    /\ trace (run p') = trace w ++ [ Delay (defaultDelayMs (this w)) ]
    /\ In (List.length (trace w),
           LogFailure "SalienScriptException" (Some "gameLoop() not yet implemented"%string))
         (console p').
Proof.
  intro H. eexists. split.
  - rewrite init_round_run, init_try_run, H. reflexivity.
  - simpl. splits; try reflexivity.
    apply in_or_app. right. right. left. reflexivity.
Qed.

Lemma init_round_after_pass_witness :
  exists p',
    init_round "1.0.0" (mkProcess (fresh (repeat snapshot_ABC 2)) []) = (p', Ok tt)
    /\ this (run p') = this (fst (setupGame (fresh (repeat snapshot_ABC 2))))
    /\ script (run p') = script (fst (setupGame (fresh (repeat snapshot_ABC 2))))
    /\ trace (run p')
       = trace (fst (setupGame (fresh (repeat snapshot_ABC 2))))
         ++ [ Delay (defaultDelayMs (this (fst (setupGame (fresh (repeat snapshot_ABC 2)))))) ]
    /\ In (List.length (trace (fst (setupGame (fresh (repeat snapshot_ABC 2))))),
           LogFailure "SalienScriptException" (Some "gameLoop() not yet implemented"%string))
         (console p').
Proof.
  apply (init_round_after_pass "1.0.0" (mkProcess (fresh (repeat snapshot_ABC 2)) [])
           (fst (setupGame (fresh (repeat snapshot_ABC 2))))).
  vm_compute. reflexivity.
Defined.

Lemma init_round_grows (pkgVersion : string) (p p' : process) (r : result unit) :
  init_round pkgVersion p = (p', r) -> grows (this (run p)) (this (run p')).
Proof.
  intro H. rewrite init_round_run in H.
  destruct (init_try (run p)) as [w r0] eqn:E. apply init_try_grows in E.
  destruct r0 as [[] | e | ]; inversion H; subst; exact E.
Qed.

(** X15. The restarts of [init] go on with the same instance: through any
    number of entries the settings stay the same and [knownPlanets] is never
    reset, it only grows at its end (a planet scanned again is appended
    again). *)
Theorem init_keeps_knownPlanets (pkgVersion : string) (entries : nat) (p : process) :
  grows (this (run p)) (this (run (init pkgVersion entries p))).
Proof.
  revert p. induction entries as [|entries IH]; intro p; simpl.
  - apply grows_refl.
  - destruct (init_round pkgVersion p) as [p' r] eqn:E.
    apply init_round_grows in E.
    destruct r as [[] | e | ]; [| exact E | exact E].
    eapply grows_trans; [exact E | apply IH].
Qed.

(** Three entries against the snapshot: planet A is scanned, chosen and
    recorded three times over, with one wait of 5000 ms after each. *)
Example init_three_entries :
  let p := init "1.0.0" 3 (mkProcess (fresh (repeat snapshot_ABC 6)) []) in
  knownPlanets (this (run p)) = [ "A"; "A"; "A" ]%string
  /\ currentPlanetId (this (run p)) = Some "A"%string
  /\ delays (trace (run p)) = [ 5000; 5000; 5000 ]
  /\ script (run p) = []
  /\ List.length (console p) = 9%nat.
Proof. vm_compute. repeat split. Qed.

(** ** The errors that leave a pass *)

Lemma ApiGetPlanets_throws (w w' : world) (e : js_error) :
  ApiGetPlanets w = (w', Throw e) ->
  name e = "SalienScriptException"%string
  \/ (maxRetries (this w) <= 0 /\ e = TypeError "response" "undefined")
  \/ e = TypeError "planets" "undefined".
Proof.
  intro H. unfold ApiGetPlanets in H.
  erewrite bind_ok in H by reflexivity. cbv beta in H.
  unfold bind in H.
  destruct (RequestAPI "ITerritoryControlMinigameService/GetPlanets"
              (Some [ "active_only=1"%string ]) (maxRetries (this w)) no_additional w)
    as [w1 [response | e1 | ]] eqn:E.
  - destruct response as [r|]; inversion H; subst. right. right. reflexivity.
  - inversion H; subst.
    destruct (RequestAPI_shape _ _ _ _ _ _ _ E) as [_ [_ [[_ ->] | [Hm ->]]]].
    + left. reflexivity.
    + right. left. split; [exact Hm | reflexivity].
  - discriminate.
Qed.

(** X16. Whatever the replies, an error that leaves a pass is a
    [SalienScriptException], or the [TypeError] that the [GetPlanets] call
    raises on a body without [response] (or, with a ceiling below 1, on the
    response that was never assigned).  The error of a failed attempt and
    the errors of the scan never leave it under their own name. *)
Theorem setupGame_throws_named (w w' : world) (e : js_error) :
  setupGame w = (w', Throw e) ->
  name e = "SalienScriptException"%string
  \/ e = TypeError "planets" "undefined"
  \/ (maxRetries (this w) <= 0 /\ e = TypeError "response" "undefined").
Proof.
  intro H. unfold setupGame in H. unfold bind at 1 in H.
  destruct (ApiGetPlanets w) as [w1 [[planets|] | e1 | ]] eqn:Hp.
  - unfold bind, try_catch, logger, debug, emit, gets, throw in H.
    destruct (asyncForEach planets scan_planet w1) as [wl [[] | e2 | ]].
    + discriminate.
    + destruct (String.eqb (name e2) "SalienScriptException");
        inversion H; subst. left. reflexivity.
    + discriminate.
  - inversion H; subst. left. reflexivity.
  - inversion H; subst.
    destruct (ApiGetPlanets_throws _ _ _ Hp) as [Hn | [Hr | Hpl]]; auto.
  - discriminate.
Qed.

Lemma setupGame_throws_named_witness :
  name (SalienScriptException
          (Some "Failed ITerritoryControlMinigameService/GetPlanets after 2 retries"%string))
  = "SalienScriptException"%string
  \/ SalienScriptException
       (Some "Failed ITerritoryControlMinigameService/GetPlanets after 2 retries"%string)
     = TypeError "planets" "undefined"
  \/ (maxRetries (this (fresh [ transport_failure; transport_failure ])) <= 0
      /\ SalienScriptException
           (Some "Failed ITerritoryControlMinigameService/GetPlanets after 2 retries"%string)
         = TypeError "response" "undefined").
Proof.
  apply (setupGame_throws_named (fresh [ transport_failure; transport_failure ])
           (fst (setupGame (fresh [ transport_failure; transport_failure ])))).
  vm_compute. reflexivity.
Defined.

(** ** KnownPlanets and the planets scanned *)

(** A call of [RequestAPI] that settles under a ceiling of at least 1 has
    requested its URL. *)
Lemma RequestAPI_fetches (method : string) (params : option (list string))
  (maxRetries : Z) (additionalOptions : additional_options) (w w' : world)
  (r : result (option payload)) :
  RequestAPI method params maxRetries additionalOptions w = (w', r) ->
  1 <= maxRetries ->
  r <> Pending ->
  exists new,
    trace w' = trace w ++ new /\ In (build_url method params) (fetched_urls new).
Proof.
  intros H Hmax Hr. unfold RequestAPI in H. unfold bind at 1 in H.
  unfold while_await in H.
  set (url := build_url method params) in *.
  set (options := make_options additionalOptions) in *.
  rewrite while_enter in H
    by (unfold request_again; simpl; apply Z.ltb_lt; lia).
  assert (Hrest : forall x fuel,
             keeps (requests url)
               (bind (while_ fuel (request_again maxRetries)
                        (request_round method url options maxRetries) x)
                  (fun vars => get_response (fst vars)))).
  { intros x fuel. apply keeps_bind; [apply requests_trans | | intro].
    - apply keeps_while;
        [apply requests_refl | apply requests_trans | intro; apply requests_request_round].
    - apply requests_get_response. }
  destruct (request_round method url options maxRetries (None, 0) w) as [w1 r1] eqn:E.
  destruct (request_round_cases _ _ _ _ _ _ _ _ _ E)
    as [[-> _] | [[b [-> [_ Htr]]] | [[e [_ [-> [_ Htr]]]] | [e [_ [-> [_ Htr]]]]]]].
  - inversion H; subst. now elim Hr.
  - destruct (Hrest _ _ _ _ _ H) as [_ [_ [more [Hm _]]]].
    eexists. rewrite Hm, Htr, <- app_assoc. split; [reflexivity |].
    rewrite fetched_urls_app. apply in_or_app. left. left. reflexivity.
  - destruct (Hrest _ _ _ _ _ H) as [_ [_ [more [Hm _]]]].
    eexists. rewrite Hm, Htr, <- app_assoc. split; [reflexivity |].
    rewrite fetched_urls_app. apply in_or_app. left. left. reflexivity.
  - inversion H; subst. eexists. split; [exact Htr |]. left. reflexivity.
Qed.

Lemma ApiGetPlanet_fetches (planetId : string) (w w' : world) (r : result (option Planet)) :
  ApiGetPlanet planetId w = (w', r) ->
  1 <= maxRetries (this w) ->
  r <> Pending ->
  exists new,
    trace w' = trace w ++ new /\ In (detail_url planetId) (fetched_urls new).
Proof.
  intros H Hmax Hr. unfold ApiGetPlanet in H.
  erewrite bind_ok in H by reflexivity. cbv beta in H. unfold bind in H.
  destruct (RequestAPI "ITerritoryControlMinigameService/GetPlanet"
              (Some [ ("id=" ++ planetId)%string; "language=english"%string ])
              (maxRetries (this w)) no_additional w) as [w1 r1] eqn:E.
  assert (Hw : w' = w1 /\ (r1 = Pending -> r = Pending)).
  { destruct r1 as [response | e | ]; [| inversion H; subst; split; [reflexivity | discriminate]
                                        | inversion H; subst; split; reflexivity ].
    unfold get_first_planet, get_planets, bind, ret, throw in H.
    destruct response as [[[l|]]|]; inversion H; subst; split;
      try reflexivity; discriminate. }
  destruct Hw as [-> Hp].
  apply (RequestAPI_fetches _ _ _ _ _ _ _ E Hmax). intro Hr1. apply Hr, Hp, Hr1.
Qed.

Lemma wait_zones_fetches (planetId : string) (w w' : world) (r : result (option Planet)) :
  wait_zones planetId w = (w', r) ->
  1 <= maxRetries (this w) ->
  r <> Pending ->
  exists new,
    trace w' = trace w ++ new /\ In (detail_url planetId) (fetched_urls new).
Proof.
  intros H Hmax Hr. unfold wait_zones, while_await in H.
  rewrite while_enter in H by reflexivity.
  destruct (ApiGetPlanet planetId w) as [w1 r1] eqn:E.
  destruct r1 as [zones | e | ].
  - destruct (ApiGetPlanet_fetches _ _ _ _ E Hmax ltac:(discriminate)) as [n [Hn Hin]].
    assert (Hk : requests (detail_url planetId) w1 w').
    { revert H. apply keeps_while;
        [apply requests_refl | apply requests_trans | intro; apply requests_ApiGetPlanet]. }
    destruct Hk as [_ [_ [more [Hm _]]]].
    exists (n ++ more). rewrite Hm, Hn, app_assoc. split; [reflexivity |].
    rewrite fetched_urls_app. apply in_or_app. left. exact Hin.
  - inversion H; subst. apply (ApiGetPlanet_fetches _ _ _ _ E Hmax). discriminate.
  - inversion H; subst. now elim Hr.
Qed.

(** The callback on one planet: what it records, what it requests, and that
    it keeps the ceiling. *)
Lemma scan_planet_record (planet : Planet) (w w' : world) (r : result unit) :
  scan_planet planet w = (w', r) ->
  knownPlanets (this w') = knownPlanets (this w) ++ [id planet]
  /\ maxRetries (this w') = maxRetries (this w)
  /\ exists new,
       trace w' = trace w ++ new
       /\ Forall (eq (detail_url (id planet))) (fetched_urls new)
       /\ (1 <= maxRetries (this w) -> r <> Pending ->
           In (detail_url (id planet)) (fetched_urls new)).
Proof.
  intro H.
  destruct (scan_planet_known planet _ _ _ H) as [Hk [new [Hn Hf]]].
  split; [exact Hk |]. split.
  { destruct (scan_planet_effect _ _ _ _ H) as [[-> _] | [-> _]]; reflexivity. }
  exists new. split; [exact Hn |]. split; [exact Hf |].
  intros Hmax Hr.
  (* some request was made: the one that [wait_zones] starts with *)
  assert (Hsome : fetched_urls new <> []).
  { unfold scan_planet in H.
    erewrite bind_ok in H by reflexivity. cbv beta in H. unfold bind at 1 in H.
    destruct (wait_zones (id planet) (mkWorld (with_known (this w) (id planet))
                                        (script w) (trace w)))
      as [w2 r2] eqn:E.
    assert (Hr2 : r2 <> Pending)
      by (intro; subst r2; inversion H; subst; now elim Hr).
    destruct (wait_zones_fetches _ _ _ _ E Hmax Hr2) as [n [Hn2 Hin]]. simpl in Hn2.
    assert (Hext : exists more, trace w' = trace w2 ++ more).
    { destruct r2 as [[detail|] | e | ]; [| | | now elim Hr2 ].
      - destruct (zones detail) as [l|].
        + unfold bind at 1, ret at 1 in H. unfold bind at 1 in H.
          destruct (forEach_zone_run l initial_counters w2) as [c [m [Hrun _]]].
          rewrite Hrun in H.
          destruct (state planet) as [st|].
          * unfold bind, ret, logger, emit, set_currentPlanetId, throw in H.
            simpl in H.
            destruct (unknownZones c =? 0); destruct (hasBossZone c);
              simpl in H; inversion H; subst; simpl;
              rewrite <- ?app_assoc; eexists; reflexivity.
          * unfold bind, throw in H. inversion H; subst. simpl.
            eexists; reflexivity.
        + unfold bind, throw in H. inversion H; subst.
          exists []. now rewrite app_nil_r.
      - unfold bind, throw in H. inversion H; subst.
        exists []. now rewrite app_nil_r.
      - inversion H; subst. exists []. now rewrite app_nil_r. }
    destruct Hext as [more Hm].
    rewrite Hm, Hn2, <- app_assoc in Hn. apply app_inv_head in Hn. subst new.
    rewrite fetched_urls_app. intro Hnil. apply app_eq_nil in Hnil.
    destruct Hnil as [Hnil _]. rewrite Hnil in Hin. exact Hin. }
  destruct (fetched_urls new) as [|url urls]; [congruence |].
  inversion Hf; subst. left. reflexivity.
Qed.

(** The loop over the planets records exactly the planets it scans, and
    requests the detail of these and of no other. *)
Lemma asyncForEach_scanned (planets : list Planet) :
  forall (w w' : world) (r : result unit),
    asyncForEach planets scan_planet w = (w', r) ->
    knownPlanets (this w')
    = knownPlanets (this w) ++ map id (scanned_planets planets w)
    /\ (exists unscanned, planets = scanned_planets planets w ++ unscanned)
    /\ exists new,
         trace w' = trace w ++ new
         /\ Forall (fun url =>
                      In url (map (fun planet => detail_url (id planet))
                                (scanned_planets planets w)))
              (fetched_urls new)
         /\ (1 <= maxRetries (this w) -> r <> Pending ->
             Forall (fun planet => In (detail_url (id planet)) (fetched_urls new))
               (scanned_planets planets w)).
Proof.
  induction planets as [|planet planets IH]; intros w w' r H.
  - inversion H; subst. simpl. rewrite app_nil_r.
    split; [reflexivity |]. split; [exists []; reflexivity |].
    exists []. rewrite app_nil_r. repeat split; constructor.
  - simpl in H. unfold bind in H. simpl scanned_planets.
    destruct (scan_planet planet w) as [w1 r1] eqn:E.
    destruct (scan_planet_record _ _ _ _ E) as [Hk [Hmr [n [Hn [Hf Hc]]]]].
    destruct r1 as [[] | e | ].
    + destruct (IH _ _ _ H) as [Hk' [[unscanned Hsplit] [n' [Hn' [Hf' Hc']]]]].
      split; [rewrite Hk', Hk; simpl; rewrite <- app_assoc; reflexivity |].
      split; [exists unscanned; simpl; now rewrite <- Hsplit |].
      exists (n ++ n'). split; [rewrite Hn', Hn, app_assoc; reflexivity |].
      rewrite fetched_urls_app. split.
      * apply Forall_app. split.
        -- eapply Forall_impl; [| exact Hf]. intros url Hu. left. exact Hu.
        -- eapply Forall_impl; [| exact Hf']. intros url Hu. right. exact Hu.
      * intros Hmax Hr. constructor.
        -- apply in_or_app. left. apply Hc; [exact Hmax | discriminate].
        -- eapply Forall_impl; [| apply Hc'; [rewrite Hmr; exact Hmax | exact Hr]].
           intros p Hp. apply in_or_app. right. exact Hp.
    + inversion H; subst.
      split; [exact Hk |]. split; [exists planets; reflexivity |].
      exists n. split; [exact Hn |]. split.
      * eapply Forall_impl; [| exact Hf]. intros url Hu. left. exact Hu.
      * intros Hmax Hr. constructor; [| constructor].
        apply Hc; [exact Hmax | discriminate].
    + inversion H; subst.
      split; [exact Hk |]. split; [exists planets; reflexivity |].
      exists n. split; [exact Hn |]. split.
      * eapply Forall_impl; [| exact Hf]. intros url Hu. left. exact Hu.
      * intros _ Hr. now elim Hr.
Qed.

(** After the scan the pass only writes log lines, and it settles when the
    scan did. *)
Lemma setupGame_after_scan_settled (w w1 w' : world) (planets : list Planet)
  (r : result unit) :
  ApiGetPlanets w = (w1, Ok (Some planets)) ->
  setupGame w = (w', r) ->
  exists wl rl logs,
    asyncForEach planets scan_planet w1 = (wl, rl)
    /\ this w' = this wl
    /\ trace w' = trace wl ++ logs
    /\ fetched_urls logs = []
    /\ (r <> Pending -> rl <> Pending).
Proof.
  intros Hp H. unfold setupGame in H.
  erewrite bind_ok in H by exact Hp. cbv beta iota in H.
  unfold bind, try_catch, logger, debug, emit, gets, throw in H.
  destruct (asyncForEach planets scan_planet w1) as [wl [[] | e | ]] eqn:E.
  - inversion H; subst. do 3 eexists. split; [reflexivity |]. simpl.
    repeat split. discriminate.
  - destruct (String.eqb (name e) "SalienScriptException");
      inversion H; subst; do 3 eexists; (split; [reflexivity |]); simpl;
      rewrite <- ?app_assoc; repeat split; discriminate.
  - inversion H; subst. exists w', Pending, []. rewrite app_nil_r. repeat split.
    intro Hr. now elim Hr.
Qed.

(** C7. During a pass [knownPlanets] only grows at its end, and when the
    pass ends, however it ends, what it appended is exactly the ids of the
    planets that were scanned, in the order met.  The planets scanned are
    those on which the loop called the callback, a prefix of the planets
    list; they are tied to what the pass did on the wire in both directions:
    every detail request of the pass is for a scanned planet, and (the
    ceiling being at least 1, as the constructor sets it, and the pass
    having ended) the detail of every scanned planet was requested.  A pass
    that obtains no planets list scans nothing and records nothing. *)
Theorem knownPlanets_records_scanned (w w' : world) (r : result unit) :
  setupGame w = (w', r) ->
  (exists added, knownPlanets (this w') = knownPlanets (this w) ++ added)
  /\ ((forall w1 planets, ApiGetPlanets w <> (w1, Ok (Some planets))) ->
      knownPlanets (this w') = knownPlanets (this w))
  /\ forall w1 planets,
       ApiGetPlanets w = (w1, Ok (Some planets)) ->
       knownPlanets (this w')
       = knownPlanets (this w) ++ map id (scanned_planets planets w1)
       /\ (exists unscanned, planets = scanned_planets planets w1 ++ unscanned)
       /\ exists new,
            trace w' = trace w1 ++ new
            /\ Forall (fun url =>
                         In url (map (fun planet => detail_url (id planet))
                                   (scanned_planets planets w1)))
                 (fetched_urls new)
            /\ (1 <= maxRetries (this w) -> r <> Pending ->
                Forall (fun planet => In (detail_url (id planet)) (fetched_urls new))
                  (scanned_planets planets w1)).
Proof.
  intro H.
  assert (Hscan : forall w1 planets,
             ApiGetPlanets w = (w1, Ok (Some planets)) ->
             knownPlanets (this w')
             = knownPlanets (this w) ++ map id (scanned_planets planets w1)
             /\ (exists unscanned, planets = scanned_planets planets w1 ++ unscanned)
             /\ exists new,
                  trace w' = trace w1 ++ new
                  /\ Forall (fun url =>
                               In url (map (fun planet => detail_url (id planet))
                                         (scanned_planets planets w1)))
                       (fetched_urls new)
                  /\ (1 <= maxRetries (this w) -> r <> Pending ->
                      Forall (fun planet =>
                                In (detail_url (id planet)) (fetched_urls new))
                        (scanned_planets planets w1))).
  { intros w1 planets Hp.
    destruct (setupGame_after_scan_settled w w1 w' planets r Hp H)
      as [wl [rl [logs [Hloop [Ht [Htr [Hlogs Hsettled]]]]]]].
    destruct (asyncForEach_scanned planets w1 wl rl Hloop)
      as [Hk [Hsplit [n [Hn [Hf Hc]]]]].
    destruct (requests_ApiGetPlanets w w1 _ Hp) as [Hthis _].
    split; [rewrite Ht, Hk, Hthis; reflexivity |].
    split; [exact Hsplit |].
    exists (n ++ logs). split; [rewrite Htr, Hn, app_assoc; reflexivity |].
    rewrite fetched_urls_app, Hlogs, app_nil_r. split; [exact Hf |].
    intros Hmax Hr. apply Hc; [rewrite Hthis; exact Hmax | exact (Hsettled Hr)]. }
  assert (Hnone : (forall w1 planets, ApiGetPlanets w <> (w1, Ok (Some planets))) ->
                  knownPlanets (this w') = knownPlanets (this w)).
  { intro Hno. destruct (ApiGetPlanets w) as [w1 [[planets|] | e | ]] eqn:Hp.
    - exfalso. exact (Hno w1 planets eq_refl).
    - unfold setupGame in H. erewrite bind_ok in H by exact Hp.
      inversion H; subst.
      destruct (requests_ApiGetPlanets w w' _ Hp) as [Hthis _]. now rewrite Hthis.
    - unfold setupGame in H. erewrite bind_throw in H by exact Hp.
      inversion H; subst.
      destruct (requests_ApiGetPlanets w w' _ Hp) as [Hthis _]. now rewrite Hthis.
    - unfold setupGame in H. erewrite bind_pending in H by exact Hp.
      inversion H; subst.
      destruct (requests_ApiGetPlanets w w' _ Hp) as [Hthis _]. now rewrite Hthis. }
  split; [| split; [exact Hnone | exact Hscan]].
  destruct (ApiGetPlanets w) as [w1 [[planets|] | e | ]] eqn:Hp.
  - destruct (Hscan w1 planets eq_refl) as [Hk _].
    exists (map id (scanned_planets planets w1)). exact Hk.
  - exists []. rewrite app_nil_r. apply Hnone. intros w2 l. discriminate.
  - exists []. rewrite app_nil_r. apply Hnone. intros w2 l. discriminate.
  - exists []. rewrite app_nil_r. apply Hnone. intros w2 l. discriminate.
Qed.

(** Against the snapshot of planets A, B and C the pass scans planet A only:
    [knownPlanets] ends as [A], the one detail request is for A, and B and C,
    though listed, are neither recorded nor requested. *)
Lemma knownPlanets_records_scanned_witness :
  scanned_planets [ planet_A; planet_B; planet_C ]
    (fst (ApiGetPlanets (fresh (repeat snapshot_ABC 4))))
  = [ planet_A ]
  /\ knownPlanets (this (fst (setupGame (fresh (repeat snapshot_ABC 4)))))
     = [] ++ map id [ planet_A ]
  /\ exists new,
       trace (fst (setupGame (fresh (repeat snapshot_ABC 4))))
       = trace (fst (ApiGetPlanets (fresh (repeat snapshot_ABC 4)))) ++ new
       /\ Forall (fun url => In url (map (fun planet => detail_url (id planet))
                                       [ planet_A ]))
            (fetched_urls new)
       /\ Forall (fun planet => In (detail_url (id planet)) (fetched_urls new))
            [ planet_A ].
Proof.
  assert (Hs : scanned_planets [ planet_A; planet_B; planet_C ]
                 (fst (ApiGetPlanets (fresh (repeat snapshot_ABC 4))))
               = [ planet_A ]) by (vm_compute; reflexivity).
  split; [exact Hs |]. rewrite <- Hs.
  destruct (proj2 (proj2 (knownPlanets_records_scanned
                            (fresh (repeat snapshot_ABC 4))
                            (fst (setupGame (fresh (repeat snapshot_ABC 4))))
                            (snd (setupGame (fresh (repeat snapshot_ABC 4))))
                            (surjective_pairing _)))
              (fst (ApiGetPlanets (fresh (repeat snapshot_ABC 4))))
              [ planet_A; planet_B; planet_C ]
              ltac:(vm_compute; reflexivity))
    as [Hk [_ [new [Htr [Hf Hc]]]]].
  split; [exact Hk |].
  exists new. split; [exact Htr |]. split; [exact Hf |].
  apply Hc; vm_compute; discriminate.
Defined.
